(** * SumatraPDF [src/utils/Allocator.h]: pool allocator and fixed array helper

    A shallow embedding of [RoundUpTo8], [PoolAllocator] and [FixedArray]
    together with the properties their specification states about them.

    Conventions of the embedding:
    - [size_t] is the 64-bit unsigned type of the x64 targets: a [Z] in
      [0, 2^64), every arithmetic result reduced by [wrap];
    - a pointer is its address, a [Z], and [NULL] is [0];
    - the C heap is a finite map from the address of each live
      [MemBlockNode] to its three header fields; the data bytes that follow
      a header carry no information the allocator reads, so they are not
      stored;
    - [calloc] and [malloc] are the environment's: the address they hand
      back is an argument of the operation that calls them ([0] when the
      platform heap is exhausted);
    - a method is a computation in the monad [M]: it reads and writes the
      allocator object and the heap and either returns or stops in a
      [fault]. *)

From Stdlib Require Import ZArith Lia.
From stdpp Require Import base option list gmap.

Local Open Scope Z_scope.

(** ** Machine integers and pointers *)

Definition SIZE_BITS : Z := 64.
Definition SIZE_MOD : Z := 2 ^ SIZE_BITS.
Definition SIZE_MAX : Z := SIZE_MOD - 1.

(** Reduction of an arithmetic result to [size_t]. *)
Definition wrap (z : Z) : Z := z mod SIZE_MOD.

Definition in_size_t (z : Z) : Prop := 0 <= z < SIZE_MOD.

Definition NULL : Z := 0.

(** [static inline size_t RoundUpTo8(size_t n) { return ((n+8-1)/8)*8; }] *)
Definition RoundUpTo8 (n : Z) : Z :=
  wrap (wrap (wrap (n + 8) - 1) / 8 * 8).

(** The rounding the specification speaks of, over the unbounded integers:
    the least multiple of 8 that is not below [s]. *)
Definition round_up_8 (s : Z) : Z := 8 * ((s + 7) / 8).

(** ** The heap of block headers *)

(** [struct MemBlockNode { MemBlockNode *next; size_t size; size_t free; }] *)
Record MemBlockNode : Type := mkNode {
  next : Z;
  size : Z;
  free : Z
}.

(** [sizeof(MemBlockNode)]: three 8-byte fields. *)
Definition sizeof_MemBlockNode : Z := 24.

(** [size_t Used() { return size - free; }] *)
Definition Used (b : MemBlockNode) : Z := wrap (size b - free b).

(** Address of the data area that follows the header at [p]. *)
Definition data_start (p : Z) : Z := wrap (p + sizeof_MemBlockNode).

(** ** The allocator object *)

Record PoolAllocator : Type := mkPool {
  minBlockSize : Z;
  currMem : Z;
  currBlock : Z;
  firstBlock : Z
}.

Record state : Type := mkState {
  this : PoolAllocator;
  heap : gmap Z MemBlockNode
}.

(** ** Faults and the method monad *)

Inductive fault : Type :=
  | NullDeref      (* a field access through a null pointer *)
  | WildDeref      (* a field access through a pointer to no live block *)
  | BadFree        (* free() of an address that is not live *)
  | DivByZero      (* integer division by zero *)
  | CrashMe        (* CrashIf / CrashAlwaysIf fired *)
  | OutOfFuel.     (* the loop bound of the model was reached *)

Inductive outcome (A : Type) : Type :=
  | Ok (a : A) (s : state)
  | Crash (f : fault).
Arguments Ok {A} a s.
Arguments Crash {A} f.

Definition M (A : Type) : Type := state -> outcome A.

Definition ret {A} (a : A) : M A := fun s => Ok a s.

Definition bind {A B} (m : M A) (k : A -> M B) : M B :=
  fun s => match m s with
           | Ok a s' => k a s'
           | Crash f => Crash f
           end.

Definition crash {A} (f : fault) : M A := fun _ => Crash f.

Declare Scope pool_scope.
Delimit Scope pool_scope with pool.
Notation "x <- m ;; k" := (bind m (fun x => k))
  (at level 100, m at next level, right associativity) : pool_scope.
Notation "m ;;; k" := (bind m (fun _ => k))
  (at level 100, right associativity) : pool_scope.
Local Open Scope pool_scope.

(** Reading and writing the members of [*this]. *)
Definition get_this : M PoolAllocator := fun s => Ok (this s) s.

Definition set_minBlockSize (v : Z) : M unit := fun s =>
  Ok tt (mkState (mkPool v (currMem (this s)) (currBlock (this s))
                         (firstBlock (this s))) (heap s)).

Definition set_currMem (v : Z) : M unit := fun s =>
  Ok tt (mkState (mkPool (minBlockSize (this s)) v (currBlock (this s))
                         (firstBlock (this s))) (heap s)).

Definition set_currBlock (v : Z) : M unit := fun s =>
  Ok tt (mkState (mkPool (minBlockSize (this s)) (currMem (this s)) v
                         (firstBlock (this s))) (heap s)).

Definition set_firstBlock (v : Z) : M unit := fun s =>
  Ok tt (mkState (mkPool (minBlockSize (this s)) (currMem (this s))
                         (currBlock (this s)) v) (heap s)).

(** [p->field] as an rvalue: the header at [p]. *)
Definition load (p : Z) : M MemBlockNode := fun s =>
  if p =? NULL then Crash NullDeref
  else match heap s !! p with
       | Some b => Ok b s
       | None => Crash WildDeref
       end.

(** [p->field = v]: the header at [p] rewritten by [f]. *)
Definition store (p : Z) (f : MemBlockNode -> MemBlockNode) : M unit := fun s =>
  if p =? NULL then Crash NullDeref
  else match heap s !! p with
       | Some b => Ok tt (mkState (this s) (<[p := f b]> (heap s)))
       | None => Crash WildDeref
       end.

Definition with_next (v : Z) (b : MemBlockNode) : MemBlockNode :=
  mkNode v (size b) (free b).
Definition with_size (v : Z) (b : MemBlockNode) : MemBlockNode :=
  mkNode (next b) v (free b).
Definition with_free (v : Z) (b : MemBlockNode) : MemBlockNode :=
  mkNode (next b) (size b) v.

(** [calloc(nmemb, nbytes)] handing back [p]: a zero-filled header becomes
    live at [p]; nothing happens when the platform heap is exhausted ([p]
    null).  The length of the chunk is the caller's business and is not
    recorded: the heap says which headers are live, not how much memory
    lies behind them.  What is stated of the memory of a block is
    therefore stated with the length asked for, [AllocBlock_request], and
    only where that length holds header and capacity. *)
Definition calloc (p : Z) (nmemb nbytes : Z) : M Z := fun s =>
  if p =? NULL then Ok NULL s
  else Ok p (mkState (this s) (<[p := mkNode 0 0 0]> (heap s))).

(** [free(p)]: a no-op on null, the release of a live chunk otherwise. *)
Definition free_ (p : Z) : M unit := fun s =>
  if p =? NULL then Ok tt s
  else match heap s !! p with
       | Some _ => Ok tt (mkState (this s) (delete p (heap s)))
       | None => Crash BadFree
       end.

(** Modelled from the spec: the macros [CrashIf] and [CrashAlwaysIf] come
    from [BaseUtil.h], which is not part of the sources at hand.  The
    specification calls both misuses they guard "fatal, immediate,
    non-recoverable" and requires that a late [SetMinimumBlockSize] be
    detected and aborted, so both macros stop the program when their
    condition holds and do nothing otherwise. *)
Definition CrashIf (cond : bool) : M unit :=
  if cond then crash CrashMe else ret tt.
Definition CrashAlwaysIf (cond : bool) : M unit :=
  if cond then crash CrashMe else ret tt.

(** ** [PoolAllocator] *)

(** [void Init()] *)
Definition Init : M unit :=
  set_currBlock NULL ;;;
  set_firstBlock NULL ;;;
  set_currMem NULL.

(** [PoolAllocator()], run on the storage of a new object. *)
Definition PoolAllocator_ctor : M unit :=
  set_minBlockSize 4096 ;;;
  Init.

(** [void SetMinBlockSize(size_t newMinBlockSize)] *)
Definition SetMinBlockSize (newMinBlockSize : Z) : M unit :=
  a <- get_this ;;
  CrashIf (negb (currBlock a =? NULL)) ;;;
  set_minBlockSize newMinBlockSize.

(** The loop of [FreeAll]; one unit of [fuel] per iteration. *)
Fixpoint FreeAll_loop (fuel : nat) (curr : Z) : M unit :=
  if curr =? NULL then ret tt
  else match fuel with
       | O => crash OutOfFuel
       | S fuel' =>
           b <- load curr ;;
           let next_ := next b in
           free_ curr ;;;
           FreeAll_loop fuel' next_
       end.

(** [void FreeAll()].  Every iteration releases one live header, so the
    loop cannot run more often than there are headers. *)
Definition FreeAll : M unit :=
  a <- get_this ;;
  (fun s => FreeAll_loop (S (base.size (heap s))) (firstBlock a) s) ;;;
  Init.

(** The capacity [AllocBlock] gives the block it creates: its first four
    lines, with [minBlock] the [minBlockSize] of the pool. *)
Definition block_size (minBlock minSize : Z) : Z :=
  let minSize := RoundUpTo8 minSize in
  let size := minBlock in
  if minSize >? size then minSize else size.

(** [void AllocBlock(size_t minSize)]; [node] is what [calloc] hands back. *)
Definition AllocBlock (node : Z) (minSize : Z) : M unit :=
  a <- get_this ;;
  let size := block_size (minBlockSize a) minSize in
  node <- calloc node 1 (wrap (sizeof_MemBlockNode + size)) ;;
  (if firstBlock a =? NULL then set_firstBlock node else ret tt) ;;;
  set_currMem (wrap (node + sizeof_MemBlockNode)) ;;;
  store node (with_size size) ;;;
  store node (with_free size) ;;;
  a <- get_this ;;
  store (currBlock a) (with_next node) ;;;
  set_currBlock node.

(** [virtual void *Realloc(void *mem, size_t size)] *)
Definition Realloc (mem : Z) (size : Z) : M Z :=
  CrashAlwaysIf true ;;;
  ret NULL.

(** [virtual void Free(void *mem)] *)
Definition Free (mem : Z) : M unit := ret tt.

(** [virtual void *Alloc(size_t size)]; [node] is what [calloc] hands back
    should a new block be needed. *)
Definition Alloc (node : Z) (size : Z) : M Z :=
  let size := RoundUpTo8 size in
  a <- get_this ;;
  full <- (if currBlock a =? NULL then ret true
           else b <- load (currBlock a) ;; ret (free b <? size)) ;;
  (if full : bool then AllocBlock node size else ret tt) ;;;
  a <- get_this ;;
  let mem := currMem a in
  set_currMem (wrap (currMem a + size)) ;;;
  b <- load (currBlock a) ;;
  store (currBlock a) (with_free (wrap (free b - size))) ;;;
  ret mem.

(** The loop of [FindNthPieceOfSize]; one unit of [fuel] per iteration. *)
Fixpoint FindNth_loop (fuel : nat) (size : Z) (curr : Z) (n : Z) : M Z :=
  if curr =? NULL then ret NULL
  else match fuel with
       | O => crash OutOfFuel
       | S fuel' =>
           b <- load curr ;;
           if n =? 0 then crash DivByZero
           else
             let piecesInBlock := Used b / n in
             if piecesInBlock >? n
             then ret (wrap (wrap (curr + sizeof_MemBlockNode) + wrap (n * size)))
             else FindNth_loop fuel' size (next b) (wrap (n - piecesInBlock))
       end.

(** [void *FindNthPieceOfSize(size_t size, size_t n)].  On a chain that
    ends in null the loop visits every header at most once. *)
Definition FindNthPieceOfSize (size : Z) (n : Z) : M Z :=
  let size := RoundUpTo8 size in
  a <- get_this ;;
  fun s => FindNth_loop (S (base.size (heap s))) size (firstBlock a) n s.

(** [T *GetAtPtr<T>(size_t idx)], with [sizeof(T)] explicit. *)
Definition GetAtPtr (sizeof_T : Z) (idx : Z) : M Z :=
  FindNthPieceOfSize sizeof_T idx.

(** [T *AllocStruct<T>()], with [sizeof(T)] explicit. *)
Definition AllocStruct (sizeof_T : Z) (node : Z) : M Z :=
  Alloc node sizeof_T.

(** [virtual ~PoolAllocator()] *)
Definition PoolAllocator_dtor : M unit := FreeAll.

(** ** [FixedArray<T, StackBufInBytes>] *)

Module FixedArray.

(** The object: the address of its embedded [stackBuf] and its [memBuf]
    member. *)
Record t : Type := mk {
  stackBuf : Z;
  memBuf : Z
}.

(** What construction leaves behind: the object and the byte count of the
    [malloc] call it made, if it made one. *)
Record built : Type := mkBuilt {
  obj : t;
  malloc_request : option Z
}.

Section Template.
(** [sizeof(T)] and the template argument [int StackBufInBytes]. *)
Variables (sizeof_T StackBufInBytes : Z).

(** Number of elements of the embedded array,
    [StackBufInBytes / sizeof(T)], computed in [size_t]. *)
Definition stackEls : Z := wrap StackBufInBytes / sizeof_T.

(** [FixedArray(size_t elCount)]; [self] is the address of the embedded
    array and [p] is what [malloc] hands back should it be called. *)
Definition ctor (self : Z) (p : Z) (elCount : Z) : built :=
  let memBuf := NULL in
  let stackEls := stackEls in
  if elCount >? stackEls
  then mkBuilt (mk self p) (Some (wrap (elCount * sizeof_T)))
  else mkBuilt (mk self memBuf) None.

(** [T *Get()] *)
Definition Get (a : t) : Z :=
  if negb (memBuf a =? NULL) then memBuf a else stackBuf a.

End Template.
End FixedArray.

(** ** Calls and runs of calls *)

(** The public operations of the pool, as a caller issues them.  A call
    that may reach [calloc] carries the address [calloc] would hand back. *)
Inductive call : Type :=
  | CSetMinBlockSize (n : Z)
  | CFreeAll
  | CAllocBlock (node : Z) (minSize : Z)
  | CRealloc (mem : Z) (size : Z)
  | CFree (mem : Z)
  | CAlloc (node : Z) (size : Z)
  | CFindNthPieceOfSize (size : Z) (n : Z).

(** The effect of a call; a call without a result yields [NULL]. *)
Definition run (c : call) : M Z :=
  match c with
  | CSetMinBlockSize n => SetMinBlockSize n ;;; ret NULL
  | CFreeAll => FreeAll ;;; ret NULL
  | CAllocBlock node minSize => AllocBlock node minSize ;;; ret NULL
  | CRealloc mem sz => Realloc mem sz
  | CFree mem => Free mem ;;; ret NULL
  | CAlloc node sz => Alloc node sz
  | CFindNthPieceOfSize sz n => FindNthPieceOfSize sz n
  end.

(** [calloc] hands back null or the address of a chunk that was not live. *)
Definition calloc_fresh (node : Z) (st : state) : Prop :=
  heap st !! node = None.

(** A call as the program can issue it: its [size_t] arguments are
    [size_t] values and what [calloc] hands back is fresh. *)
Definition call_ok (c : call) (st : state) : Prop :=
  match c with
  | CSetMinBlockSize n => in_size_t n
  | CAllocBlock node sz | CAlloc node sz => in_size_t sz /\ calloc_fresh node st
  | CRealloc _ sz => in_size_t sz
  | CFindNthPieceOfSize sz n => in_size_t sz /\ in_size_t n
  | CFreeAll | CFree _ => True
  end.

Definition is_FreeAll (c : call) : bool :=
  match c with CFreeAll => true | _ => false end.

(** One call that returns, in a sound environment. *)
Definition any_step (st st' : state) : Prop :=
  exists c r, call_ok c st /\ run c st = Ok r st'.

(** One call other than [FreeAll] that returns, in a sound environment. *)
Definition pool_step (st st' : state) : Prop :=
  exists c r, is_FreeAll c = false /\ call_ok c st /\ run c st = Ok r st'.

(** [Alloc] called [n] times with the same size, the results in call
    order.  [nodes] lists what [calloc] hands back, call by call. *)
Fixpoint Alloc_many (nodes : list Z) (size : Z) : M (list Z) :=
  match nodes with
  | [] => ret []
  | node :: rest =>
      p <- Alloc node size ;;
      ps <- Alloc_many rest size ;;
      ret (p :: ps)
  end.

(** ** Well-formed pools *)

(** [l] lists the addresses of the chain of live headers that starts at
    [p] and ends in null. *)
Fixpoint chain (h : gmap Z MemBlockNode) (p : Z) (l : list Z) : Prop :=
  match l with
  | [] => p = NULL
  | a :: l' =>
      p = a /\ a <> NULL /\
      exists b, h !! a = Some b /\ chain h (next b) l'
  end.

(** The bump cursor stands [Used()] bytes into the data of the current
    block, and that block's counters are consistent. *)
Definition cursor_ok (st : state) : Prop :=
  if currBlock (this st) =? NULL then currMem (this st) = NULL
  else exists b,
      heap st !! currBlock (this st) = Some b /\
      0 <= free b <= size b /\ size b < SIZE_MOD /\
      Used b mod 8 = 0 /\
      currMem (this st) = wrap (data_start (currBlock (this st)) + Used b).

(** The invariant of the allocator: [l] is the block chain from
    [firstBlock], [currBlock] is its last block (null when there is none),
    and the cursor is consistent. *)
Definition pool_ok (st : state) (l : list Z) : Prop :=
  chain (heap st) (firstBlock (this st)) l /\
  currBlock (this st) = List.last l NULL /\
  in_size_t (minBlockSize (this st)) /\
  cursor_ok st.

(** The heap once the headers at the addresses [l] are released, first to
    last. *)
Fixpoint release (l : list Z) (h : gmap Z MemBlockNode) : gmap Z MemBlockNode :=
  match l with
  | [] => h
  | a :: l' => release l' (delete a h)
  end.

(** The pool object [Init] leaves behind. *)
Definition emptied (a : PoolAllocator) : PoolAllocator :=
  mkPool (minBlockSize a) NULL NULL NULL.

(** ** Concrete pools *)

(** The object [PoolAllocator()] builds, with no live block around. *)
Definition new_pool : state :=
  mkState (mkPool 4096 NULL NULL NULL) ∅.

(** A pool whose single block, at address 1000, has 4096 bytes of data, all
    of them free: what the first allocation is meant to set up before it
    hands out memory. *)
Definition one_block : state :=
  mkState (mkPool 4096 1024 1000 1000) {[ 1000 := mkNode NULL 4096 4096 ]}.

(** A pool of two blocks: the first, at 1000, full; the second, at 8000,
    with 16 bytes handed out. *)
Definition two_blocks : state :=
  mkState (mkPool 4096 8040 8000 1000)
          (<[ 1000 := mkNode 8000 4096 0 ]>
             {[ 8000 := mkNode NULL 4096 4080 ]}).

(** A pool configured with 64-byte blocks: one block at 1000, 24 bytes of
    it handed out. *)
Definition small_pool : state :=
  mkState (mkPool 64 1048 1000 1000) {[ 1000 := mkNode NULL 64 40 ]}.

(** [one_block] after [Alloc(16)]. *)
Definition one_block_16 : state :=
  mkState (mkPool 4096 1040 1000 1000) {[ 1000 := mkNode NULL 4096 4080 ]}.

(** ... and after a further [Alloc(8000)], which [calloc] serves at 9000. *)
Definition one_block_16_8000 : state :=
  mkState (mkPool 4096 17024 9000 1000)
          (<[ 1000 := mkNode 9000 4096 4080 ]>
             {[ 9000 := mkNode NULL 8000 0 ]}).

(** ** Blocks in the address space *)

(** The chunk of a header at [p] with [cap] bytes of data lies in the
    address space: its header does not start at null and its last byte
    has an address. *)
Definition block_in_range (p cap : Z) : Prop :=
  0 < p /\ p + sizeof_MemBlockNode + cap <= SIZE_MAX.

(** Calls that set the configured minimum. *)
Definition is_SetMinBlockSize (c : call) : bool :=
  match c with CSetMinBlockSize _ => true | _ => false end.

(** A computation that, when it returns, leaves the configured minimum
    as it found it. *)
Definition keeps_minBlockSize {A} (m : M A) : Prop :=
  forall s a s', m s = Ok a s' ->
                 minBlockSize (this s') = minBlockSize (this s).

(** The byte count [AllocBlock] passes to [calloc],
    [sizeof(MemBlockNode) + size] computed in [size_t]; [a] is the pool
    object. *)
Definition AllocBlock_request (a : PoolAllocator) (minSize : Z) : Z :=
  wrap (sizeof_MemBlockNode + block_size (minBlockSize a) minSize).

(** A pool object whose members hold what the storage happened to hold
    before the constructor runs. *)
Definition raw_storage : PoolAllocator := mkPool 7 9000 8000 1000.

(** ** The platform heap *)

(** The memory the [Allocator] helpers work on: a pool allocator with the
    headers of its blocks, the chunks [malloc] handed out and that are not
    yet freed (base address and length), and the contents of memory, byte
    by byte (an address that is absent holds an indeterminate value). *)
Record world : Type := mkWorld {
  pool : state;
  chunks : gmap Z Z;
  bytes : gmap Z Z
}.

Inductive result (A : Type) : Type :=
  | Done (a : A) (w : world)
  | Fault (f : fault).
Arguments Done {A} a w.
Arguments Fault {A} f.

Definition W (A : Type) : Type := world -> result A.

Definition wret {A} (a : A) : W A := fun w => Done a w.

Definition wbind {A B} (m : W A) (k : A -> W B) : W B :=
  fun w => match m w with
           | Done a w' => k a w'
           | Fault f => Fault f
           end.

Declare Scope world_scope.
Delimit Scope world_scope with world.
Notation "x <- m ;; k" := (wbind m (fun x => k))
  (at level 100, m at next level, right associativity) : world_scope.
Notation "m ;;; k" := (wbind m (fun _ => k))
  (at level 100, right associativity) : world_scope.

(** A method of the pool, run on the pool of the world. *)
Definition lift {A} (m : M A) : W A := fun w =>
  match m (pool w) with
  | Ok a s => Done a (mkWorld s (chunks w) (bytes w))
  | Crash f => Fault f
  end.

(** [malloc(n)] handing back [p]: a chunk of [n] bytes becomes live at
    [p]; nothing happens when the platform heap is exhausted ([p] null). *)
Definition malloc (p : Z) (n : Z) : W Z := fun w =>
  if p =? NULL then Done NULL w
  else Done p (mkWorld (pool w) (<[p := n]> (chunks w)) (bytes w)).

(** [free(p)] on the platform heap: a no-op on null, the release of a live
    chunk otherwise. *)
Definition free_chunk (p : Z) : W unit := fun w =>
  if p =? NULL then Done tt w
  else match chunks w !! p with
       | Some _ => Done tt (mkWorld (pool w) (delete p (chunks w)) (bytes w))
       | None => Fault BadFree
       end.

(** The first [n] bytes at [src], as [from] holds them, written to [dst]
    in [to]. *)
Fixpoint copy_bytes (from : gmap Z Z) (dst src : Z) (n : nat)
    (to : gmap Z Z) : gmap Z Z :=
  match n with
  | O => to
  | S k =>
      let to' := copy_bytes from dst src k to in
      match from !! (src + Z.of_nat k) with
      | Some v => <[dst + Z.of_nat k := v]> to'
      | None => delete (dst + Z.of_nat k) to'
      end
  end.

(** [memcpy(dst, src, n)], for regions that do not overlap: the bytes are
    read from memory as it was before the call.  Bounds are not checked:
    what this says of a copy that runs past the chunk it writes to is not
    what a machine does. *)
Definition memcpy (dst src : Z) (n : Z) : W Z := fun w =>
  Done dst (mkWorld (pool w) (chunks w)
                    (copy_bytes (bytes w) dst src (Z.to_nat n) (bytes w))).

(** ** The [Allocator] interface *)

Module Allocator.

(** An object of a class derived from [Allocator]: its three virtual
    methods. *)
Record vtable : Type := mkVtable {
  vAlloc : Z -> W Z;
  vRealloc : Z -> Z -> W Z;
  vFree : Z -> W unit
}.

(** [static void *Alloc(Allocator *a, size_t size)]; [a] is [None] for the
    null pointer and [p] is what [malloc] hands back. *)
Definition Alloc (p : Z) (a : option vtable) (size : Z) : W Z :=
  match a with
  | None => malloc p size
  | Some v => vAlloc v size
  end.

(** [static void Free(Allocator *a, void *p)] *)
Definition Free (a : option vtable) (p : Z) : W unit :=
  match a with
  | None => free_chunk p
  | Some v => vFree v p
  end.

Section Platform.
(** [realloc] of the platform, which nothing here depends on. *)
Variable realloc : Z -> Z -> W Z.

(** [static void* Realloc(Allocator *a, void *mem, size_t size)] *)
Definition Realloc (a : option vtable) (mem : Z) (size : Z) : W Z :=
  match a with
  | None => realloc mem size
  | Some v => vRealloc v mem size
  end.

End Platform.

(** [static void *Dup(Allocator *a, void *mem, size_t size,
    size_t padding=0)] *)
Definition Dup (p : Z) (a : option vtable) (mem : Z) (size : Z)
    (padding : Z) : W Z :=
  (newMem <- Alloc p a (wrap (size + padding)) ;;
   (if negb (newMem =? NULL) then memcpy newMem mem size ;;; wret tt
    else wret tt) ;;;
   wret newMem)%world.

End Allocator.

(** A [PoolAllocator] seen through the interface; [node] is what [calloc]
    hands back should its [Alloc] need a block. *)
Definition PoolAllocator_vtable (node : Z) : Allocator.vtable :=
  Allocator.mkVtable
    (fun size => lift (Alloc node size))
    (fun mem size => lift (Realloc mem size))
    (fun mem => lift (Free mem)).

(** A world around the pool [one_block_16]: no [malloc] chunk, and the
    three bytes 104, 105, 33 at the addresses 500 to 502. *)
Definition small_world : world :=
  mkWorld one_block_16 ∅ (<[ 500 := 104 ]> (<[ 501 := 105 ]> {[ 502 := 33 ]})).

(** ** The life of a [FixedArray] *)

(** [FixedArray(size_t elCount)] with its call of [malloc] carried out on
    the platform heap. *)
Definition FixedArray_construct (sizeof_T StackBufInBytes : Z)
    (self p elCount : Z) : W FixedArray.t :=
  let r := FixedArray.ctor sizeof_T StackBufInBytes self p elCount in
  match FixedArray.malloc_request r with
  | Some n => (malloc p n ;;; wret (FixedArray.obj r))%world
  | None => wret (FixedArray.obj r)
  end.

(** [~FixedArray() { free(memBuf); }] *)
Definition FixedArray_dtor (a : FixedArray.t) : W unit :=
  free_chunk (FixedArray.memBuf a).

(** ** Arithmetic of [size_t] *)

Ltac unwrap :=
  unfold RoundUpTo8, round_up_8, Used, data_start, wrap, in_size_t,
    SIZE_MAX, sizeof_MemBlockNode, NULL in *;
  change SIZE_MOD with 18446744073709551616 in *.

Lemma wrap_range z : 0 <= wrap z < SIZE_MOD.
Proof. unwrap. apply Z.mod_pos_bound. lia. Qed.

Lemma wrap_small z : in_size_t z -> wrap z = z.
Proof. unwrap. intros. apply Z.mod_small. lia. Qed.

Lemma RoundUpTo8_range n : in_size_t (RoundUpTo8 n).
Proof. unfold RoundUpTo8. apply wrap_range. Qed.

Lemma RoundUpTo8_mod8 n : RoundUpTo8 n mod 8 = 0.
Proof. unwrap. Z.div_mod_to_equations. lia. Qed.

Lemma RoundUpTo8_round_up_8 s :
  0 <= s <= SIZE_MAX - 7 -> RoundUpTo8 s = round_up_8 s.
Proof. unwrap. intros. Z.div_mod_to_equations. lia. Qed.

Lemma RoundUpTo8_wraps s :
  SIZE_MAX - 7 < s <= SIZE_MAX -> RoundUpTo8 s = 0.
Proof. unwrap. intros. Z.div_mod_to_equations. lia. Qed.

Lemma RoundUpTo8_idem n : RoundUpTo8 (RoundUpTo8 n) = RoundUpTo8 n.
Proof.
  pose proof (RoundUpTo8_range n) as Hr.
  pose proof (RoundUpTo8_mod8 n) as Hm.
  generalize dependent (RoundUpTo8 n). intros r Hr Hm.
  unwrap. Z.div_mod_to_equations. lia.
Qed.

Lemma round_up_8_least s :
  s <= round_up_8 s /\ round_up_8 s mod 8 = 0 /\
  forall m, s <= m -> m mod 8 = 0 -> round_up_8 s <= m.
Proof.
  unfold round_up_8. repeat split.
  - Z.div_mod_to_equations. lia.
  - Z.div_mod_to_equations. lia.
  - intros m Hm H8. Z.div_mod_to_equations. lia.
Qed.

Lemma block_size_range m S :
  in_size_t m -> in_size_t (block_size m S).
Proof.
  intros Hm. unfold block_size.
  destruct (Z.gtb_spec (RoundUpTo8 S) m); auto using RoundUpTo8_range.
Qed.

Lemma block_size_max m S : block_size m S = Z.max m (RoundUpTo8 S).
Proof.
  unfold block_size. destruct (Z.gtb_spec (RoundUpTo8 S) m); lia.
Qed.

Lemma wrap_offset_mod8 d u : u mod 8 = 0 -> (wrap (d + u) - d) mod 8 = 0.
Proof. unwrap. intros. Z.div_mod_to_equations. lia. Qed.

Lemma aligned_offset m d : (m - d) mod 8 = 0 -> d mod 8 = 0 -> m mod 8 = 0.
Proof. intros. Z.div_mod_to_equations. lia. Qed.

(** ** Stepping through the monad *)

Lemma load_live p b s :
  p <> NULL -> heap s !! p = Some b -> load p s = Ok b s.
Proof.
  intros Hp Hb. unfold load. destruct (Z.eqb_spec p NULL); [done|].
  by rewrite Hb.
Qed.

Lemma store_live p f b s :
  p <> NULL -> heap s !! p = Some b ->
  store p f s = Ok tt (mkState (this s) (<[p := f b]> (heap s))).
Proof.
  intros Hp Hb. unfold store. destruct (Z.eqb_spec p NULL); [done|].
  by rewrite Hb.
Qed.

Lemma store_null f s : store NULL f s = Crash NullDeref.
Proof. reflexivity. Qed.

(** A field write through a live pointer, its lookup solved by the
    insertions already made. *)
Ltac store_step :=
  erewrite store_live;
  [ cbn [this heap currBlock currMem firstBlock minBlockSize]
  | done
  | cbn [this heap];
    repeat first [rewrite lookup_insert_eq | rewrite lookup_insert_ne by done];
    first [reflexivity | eassumption] ].

Ltac load_step :=
  erewrite load_live;
  [ cbn [this heap currBlock currMem firstBlock minBlockSize]
  | done
  | cbn [this heap];
    repeat first [rewrite lookup_insert_eq | rewrite lookup_insert_ne by done];
    first [reflexivity | eassumption] ].

(** [AllocBlock] on a pool that has a current block. *)
Lemma AllocBlock_active node S st b :
  currBlock (this st) <> NULL ->
  heap st !! currBlock (this st) = Some b ->
  node <> NULL ->
  calloc_fresh node st ->
  AllocBlock node S st =
  Ok tt (mkState
           (mkPool (minBlockSize (this st)) (data_start node) node
                   (if firstBlock (this st) =? NULL then node
                    else firstBlock (this st)))
           (<[currBlock (this st) := with_next node b]>
              (<[node := mkNode 0 (block_size (minBlockSize (this st)) S)
                                  (block_size (minBlockSize (this st)) S)]>
                 (heap st)))).
Proof.
  intros Hcb Hb Hnode Hfresh. unfold calloc_fresh in Hfresh.
  assert (Hne : node <> currBlock (this st)) by congruence.
  destruct st as [[m cm cb fb] h]; cbn in *.
  unfold AllocBlock, bind, get_this, calloc; cbn.
  destruct (Z.eqb_spec node NULL) as [|_]; [done|].
  destruct (Z.eqb_spec fb NULL) as [Hfb|Hfb]; cbn;
    do 3 store_step; cbn; rewrite !insert_insert_eq; reflexivity.
Qed.

(** [AllocBlock] on a pool without a current block: the write to
    [currBlock->next] goes through the null pointer. *)
Lemma AllocBlock_no_current node S st :
  currBlock (this st) = NULL -> AllocBlock node S st = Crash NullDeref.
Proof.
  intros Hcb. destruct st as [[m cm cb fb] h]; cbn in *; subst cb.
  unfold AllocBlock, bind, get_this, calloc; cbn.
  destruct (Z.eqb_spec node NULL) as [->|Hnode].
  - destruct (fb =? NULL); reflexivity.
  - destruct (fb =? NULL); cbn; do 2 store_step; reflexivity.
Qed.

(** [AllocBlock] when the platform heap is exhausted. *)
Lemma AllocBlock_calloc_failed S st :
  AllocBlock NULL S st = Crash NullDeref.
Proof.
  destruct st as [[m cm cb fb] h].
  unfold AllocBlock, bind, get_this, calloc; cbn.
  destruct (fb =? NULL); reflexivity.
Qed.

(** [Alloc] on a pool without a current block. *)
Lemma Alloc_no_current node sz st :
  currBlock (this st) = NULL -> Alloc node sz st = Crash NullDeref.
Proof.
  intros Hcb. unfold Alloc. unfold bind at 1. unfold get_this at 1.
  rewrite Hcb. cbn. unfold bind at 1.
  rewrite AllocBlock_no_current; done.
Qed.

(** [Alloc] served from the current block. *)
Lemma Alloc_bump node sz st b :
  currBlock (this st) <> NULL ->
  heap st !! currBlock (this st) = Some b ->
  RoundUpTo8 sz <= free b ->
  Alloc node sz st =
  Ok (currMem (this st))
     (mkState
        (mkPool (minBlockSize (this st))
                (wrap (currMem (this st) + RoundUpTo8 sz))
                (currBlock (this st)) (firstBlock (this st)))
        (<[currBlock (this st) :=
             with_free (wrap (free b - RoundUpTo8 sz)) b]> (heap st))).
Proof.
  intros Hcb Hb Hfree.
  destruct st as [[m cm cb fb] h]; cbn in *.
  unfold Alloc, bind, get_this; cbn.
  destruct (Z.eqb_spec cb NULL) as [|_]; [done|].
  load_step. destruct (Z.ltb_spec (free b) (RoundUpTo8 sz)); [lia|].
  cbn. unfold set_currMem; cbn. load_step. store_step. reflexivity.
Qed.

(** [Alloc] when the current block is too full: a new block is chained
    in and the request is served from its start. *)
Lemma Alloc_grow node sz st b :
  currBlock (this st) <> NULL ->
  heap st !! currBlock (this st) = Some b ->
  free b < RoundUpTo8 sz ->
  node <> NULL ->
  calloc_fresh node st ->
  Alloc node sz st =
  Ok (data_start node)
     (mkState
        (mkPool (minBlockSize (this st))
                (wrap (data_start node + RoundUpTo8 sz))
                node
                (if firstBlock (this st) =? NULL then node
                 else firstBlock (this st)))
        (<[node := mkNode 0 (block_size (minBlockSize (this st)) sz)
                     (wrap (block_size (minBlockSize (this st)) sz
                            - RoundUpTo8 sz))]>
           (<[currBlock (this st) := with_next node b]> (heap st)))).
Proof.
  intros Hcb Hb Hfree Hnode Hfresh.
  assert (Hne : node <> currBlock (this st))
    by (unfold calloc_fresh in Hfresh; congruence).
  assert (Hne' : currBlock (this st) <> node) by congruence.
  unfold Alloc. unfold bind at 1. unfold get_this at 1. cbn.
  destruct (Z.eqb_spec (currBlock (this st)) NULL) as [|_]; [done|].
  unfold bind at 1 2. rewrite (load_live _ b) by done. cbn.
  destruct (Z.ltb_spec (free b) (RoundUpTo8 sz)); [|lia].
  unfold bind at 1.
  rewrite (AllocBlock_active node _ st b) by done.
  unfold bind, get_this, set_currMem; cbn.
  load_step. store_step. cbn.
  rewrite (insert_insert_ne _ (currBlock (this st)) node) by done.
  rewrite insert_insert_eq.
  unfold block_size. rewrite RoundUpTo8_idem. reflexivity.
Qed.

(** ** Block chains *)

Lemma chain_inj h p l1 l2 : chain h p l1 -> chain h p l2 -> l1 = l2.
Proof.
  revert p l2. induction l1 as [|a l1 IH]; intros p [|a2 l2]; cbn.
  - done.
  - intros -> (<- & Ha & _). done.
  - intros (<- & Ha & _) ->. done.
  - intros (<- & _ & b & Hb & Hc) (<- & _ & b2 & Hb2 & Hc2).
    assert (b2 = b) as -> by congruence.
    f_equal. eauto.
Qed.

Lemma chain_app_inv h p l1 a l2 :
  chain h p (l1 ++ a :: l2) -> chain h a (a :: l2).
Proof.
  revert p. induction l1 as [|x l1 IH]; intros p; cbn.
  - intros Hc. pose proof Hc as (-> & _). exact Hc.
  - intros (_ & _ & b & _ & Hc). exact (IH _ Hc).
Qed.

(** A chain that ends in null visits no header twice. *)
Lemma chain_NoDup h p l : chain h p l -> NoDup l.
Proof.
  revert p. induction l as [|a l IH]; intros p Hc.
  - constructor.
  - pose proof Hc as (<- & Ha & b & Hb & Hc').
    apply NoDup_cons. split; [|eauto].
    intros Hin. apply list_elem_of_split in Hin as (l1 & l2 & ->).
    pose proof (chain_app_inv _ _ _ _ _ Hc') as Hc2.
    pose proof (chain_inj _ _ _ _ Hc Hc2) as Heq.
    apply (f_equal length) in Heq. cbn in Heq.
    rewrite length_app in Heq. cbn in Heq. lia.
Qed.

Lemma chain_live h p l a : chain h p l -> a ∈ l -> is_Some (h !! a) /\ a <> NULL.
Proof.
  revert p. induction l as [|x l IH]; intros p Hc Hin.
  - by apply elem_of_nil in Hin.
  - destruct Hc as (<- & Hp & b & Hb & Hc).
    apply elem_of_cons in Hin as [->|Hin]; eauto.
Qed.

(** Headers outside the chain do not matter to it. *)
Lemma chain_ext h h' p l :
  (forall a, a ∈ l -> h' !! a = h !! a) -> chain h p l -> chain h' p l.
Proof.
  revert p. induction l as [|x l IH]; intros p Hext; cbn; [done|].
  intros (<- & Hp & b & Hb & Hc). split; [done|]. split; [done|].
  exists b. split.
  - rewrite Hext; [done|]. apply elem_of_cons; auto.
  - apply IH; [|done]. intros a Ha. apply Hext. apply elem_of_cons; auto.
Qed.

Lemma chain_length_le h p l : chain h p l -> (length l <= base.size h)%nat.
Proof.
  revert h p. induction l as [|a l IH]; intros h p Hc; cbn; [lia|].
  pose proof (chain_NoDup _ _ _ Hc) as Hnd.
  apply NoDup_cons in Hnd as [Hnotin _].
  destruct Hc as (<- & Hp & b & Hb & Hc).
  assert (Hc' : chain (delete p h) (next b) l).
  { eapply chain_ext; [|exact Hc]. intros a Ha.
    apply lookup_delete_ne. intros ->. done. }
  apply IH in Hc'.
  rewrite map_size_delete_Some in Hc' by eauto.
  assert (base.size h <> 0%nat).
  { intros Hz. apply map_size_empty_inv in Hz. subst h.
    by rewrite lookup_empty in Hb. }
  lia.
Qed.

Lemma lookup_release l h p :
  release l h !! p = if decide (p ∈ l) then None else h !! p.
Proof.
  revert h. induction l as [|a l IH]; intros h; cbn.
  - destruct (decide (p ∈ [])) as [Hin|]; [|done].
    by apply elem_of_nil in Hin.
  - rewrite IH. destruct (decide (p ∈ l)) as [Hin|Hnin].
    + rewrite decide_True; [done|]. apply elem_of_cons; auto.
    + destruct (decide (p = a)) as [->|Hne].
      * rewrite lookup_delete_eq. rewrite decide_True; [done|].
        apply elem_of_cons; auto.
      * rewrite lookup_delete_ne by done. rewrite decide_False; [done|].
        intros [?|?]%elem_of_cons; done.
Qed.

Lemma release_size_le l h : (base.size (release l h) <= base.size h)%nat.
Proof.
  revert h. induction l as [|a l IH]; intros h; cbn; [lia|].
  etransitivity; [apply IH|].
  destruct (h !! a) eqn:Ha.
  - rewrite map_size_delete_Some by eauto. lia.
  - rewrite delete_id by done. lia.
Qed.

(** ** Bulk release *)

Lemma FreeAll_loop_chain l : forall fuel p s,
  chain (heap s) p l -> (length l <= fuel)%nat ->
  FreeAll_loop fuel p s = Ok tt (mkState (this s) (release l (heap s))).
Proof.
  induction l as [|a l IH]; intros fuel p s Hc Hfuel.
  - cbn in Hc. subst p. destruct s. destruct fuel; reflexivity.
  - pose proof (chain_NoDup _ _ _ Hc) as Hnd.
    apply NoDup_cons in Hnd as [Hnotin _].
    destruct Hc as (<- & Hp & b & Hb & Hc).
    destruct fuel as [|fuel]; [cbn in Hfuel; lia|].
    cbn [FreeAll_loop]. destruct (Z.eqb_spec p NULL) as [|_]; [done|].
    unfold bind at 1. rewrite (load_live _ b) by done.
    unfold bind at 1. unfold free_.
    destruct (Z.eqb_spec p NULL) as [|_]; [done|]. rewrite Hb.
    rewrite IH; cbn [this heap].
    + reflexivity.
    + eapply chain_ext; [|exact Hc]. intros x Hx.
      apply lookup_delete_ne. intros ->. done.
    + cbn in Hfuel. lia.
Qed.

(** [FreeAll] on a pool whose chain ends in null: every header of the
    chain is released and the object is as [Init] leaves it. *)
Lemma FreeAll_chain st l :
  chain (heap st) (firstBlock (this st)) l ->
  FreeAll st = Ok tt (mkState (emptied (this st)) (release l (heap st))).
Proof.
  intros Hc. unfold FreeAll. unfold bind at 1. unfold get_this at 1.
  unfold bind at 1.
  rewrite (FreeAll_loop_chain l) by
    (try done; pose proof (chain_length_le _ _ _ Hc); lia).
  reflexivity.
Qed.

(** The model's loop bound is never what stops [FreeAll]. *)
Lemma FreeAll_loop_fuel : forall fuel p s,
  (base.size (heap s) < fuel)%nat ->
  FreeAll_loop fuel p s <> Crash OutOfFuel.
Proof.
  induction fuel as [|fuel IH]; intros p s Hfuel; [lia|].
  cbn [FreeAll_loop]. destruct (Z.eqb_spec p NULL) as [|Hp]; [done|].
  unfold bind at 1. unfold load.
  destruct (Z.eqb_spec p NULL) as [|_]; [done|].
  destruct (heap s !! p) as [b|] eqn:Hb; [|done].
  unfold bind at 1. unfold free_.
  destruct (Z.eqb_spec p NULL) as [|_]; [done|]. rewrite Hb.
  assert (base.size (heap s) <> 0%nat).
  { intros Hz. apply map_size_empty_inv in Hz. rewrite Hz in Hb.
    by rewrite lookup_empty in Hb. }
  apply IH. cbn. rewrite map_size_delete_Some by eauto.
  lia.
Qed.

Lemma FreeAll_fuel st : FreeAll st <> Crash OutOfFuel.
Proof.
  unfold FreeAll. unfold bind at 1. unfold get_this at 1.
  unfold bind at 1.
  pose proof (FreeAll_loop_fuel (S (base.size (heap st)))
                (firstBlock (this st)) st ltac:(lia)) as Hf.
  destruct (FreeAll_loop _ _ st); [done|congruence].
Qed.

(** ** The invariant *)

Lemma last_elem_of (l : list Z) d : l <> [] -> List.last l d ∈ l.
Proof.
  induction l as [|a [|a2 l] IH]; intros Hl; [done| |].
  - cbn. apply elem_of_cons; auto.
  - change (List.last (a :: a2 :: l) d) with (List.last (a2 :: l) d).
    apply elem_of_cons. right. apply IH. done.
Qed.

Lemma chain_update h p l a b b' :
  chain h p l -> h !! a = Some b -> next b' = next b ->
  chain (<[a := b']> h) p l.
Proof.
  revert p. induction l as [|x l IH]; intros p; cbn; [done|].
  intros (<- & Hp & bx & Hbx & Hc) Hb Hnext.
  split; [done|]. split; [done|].
  destruct (decide (p = a)) as [->|Hne].
  - exists b'. rewrite lookup_insert_eq. split; [done|].
    assert (bx = b) as -> by congruence. rewrite Hnext. eauto.
  - exists bx. rewrite lookup_insert_ne by done. eauto.
Qed.

(** Chaining a fresh header behind the last one. *)
Lemma chain_snoc h p l b node nb :
  chain h p l -> l <> [] ->
  h !! List.last l NULL = Some b ->
  h !! node = None -> node <> NULL -> next nb = NULL ->
  chain (<[node := nb]> (<[List.last l NULL := with_next node b]> h))
        p (l ++ [node]).
Proof.
  revert p. induction l as [|a [|a2 l] IH]; intros p Hc Hl Hb Hfresh Hnode Hnb;
    [done| |].
  - cbn in *. destruct Hc as (<- & Hp & bx & Hbx & Hnext).
    assert (node <> p) by congruence.
    split; [done|]. split; [done|].
    exists (with_next node b). split.
    + rewrite lookup_insert_ne by done. by rewrite lookup_insert_eq.
    + cbn. split; [done|]. split; [done|].
      exists nb. by rewrite lookup_insert_eq.
  - pose proof (chain_NoDup _ _ _ Hc) as Hnd.
    apply NoDup_cons in Hnd as [Hnotin _].
    change (List.last (a :: a2 :: l) NULL) with (List.last (a2 :: l) NULL) in *.
    assert (Hlast : List.last (a2 :: l) NULL ∈ a2 :: l)
      by (apply last_elem_of; done).
    destruct Hc as (<- & Hp & ba & Hba & Hc).
    assert (node <> p) by congruence.
    assert (List.last (a2 :: l) NULL <> p) by (intros Heq; congruence).
    change ((p :: a2 :: l) ++ [node]) with (p :: ((a2 :: l) ++ [node])).
    split; [done|]. split; [done|].
    exists ba. split.
    + by rewrite !lookup_insert_ne.
    + apply IH; done.
Qed.

Lemma pool_ok_empty_iff st l :
  pool_ok st l -> (currBlock (this st) = NULL <-> l = []).
Proof.
  intros (Hc & Hcb & _). split.
  - intros Hnull. destruct l as [|a l]; [done|].
    assert (Hin : List.last (a :: l) NULL ∈ a :: l) by (apply last_elem_of; done).
    apply (chain_live _ _ _ _ Hc) in Hin as [_ Hne]. congruence.
  - intros ->. done.
Qed.

Lemma pool_ok_first st l :
  pool_ok st l -> (firstBlock (this st) = NULL <-> l = []).
Proof.
  intros (Hc & _). destruct l as [|a l]; cbn in Hc.
  - done.
  - destruct Hc as (-> & Ha & _). done.
Qed.

(** What the invariant says of a pool that has a current block. *)
Lemma pool_ok_active st l :
  pool_ok st l -> currBlock (this st) <> NULL ->
  l <> [] /\ firstBlock (this st) <> NULL /\
  exists b, heap st !! currBlock (this st) = Some b /\
            0 <= free b <= size b /\ size b < SIZE_MOD /\
            Used b mod 8 = 0 /\
            currMem (this st) = wrap (data_start (currBlock (this st)) + Used b).
Proof.
  intros Hok Hcb.
  assert (Hl : l <> []) by (intros Hl; apply (pool_ok_empty_iff _ _ Hok) in Hl; done).
  assert (Hfb : firstBlock (this st) <> NULL)
    by (intros Hfb; apply (pool_ok_first _ _ Hok) in Hfb; done).
  destruct Hok as (_ & _ & _ & Hcur). unfold cursor_ok in Hcur.
  destruct (Z.eqb_spec (currBlock (this st)) NULL); done.
Qed.

(** The constructor establishes the invariant, whatever the storage of the
    object held before. *)
Lemma PoolAllocator_ctor_ok s :
  exists s', PoolAllocator_ctor s = Ok tt s' /\
             this s' = mkPool 4096 NULL NULL NULL /\
             heap s' = heap s /\ pool_ok s' [].
Proof.
  eexists. split; [reflexivity|]. cbn. repeat split; cbn; unwrap; lia.
Qed.

(** Bulk release re-establishes it. *)
Lemma pool_ok_emptied a h :
  in_size_t (minBlockSize a) -> pool_ok (mkState (emptied a) h) [].
Proof. intros Hm. repeat split; cbn; auto; apply Hm. Qed.

(** Bumping the cursor keeps it. *)
Lemma Alloc_bump_ok node sz st l b :
  pool_ok st l -> currBlock (this st) <> NULL ->
  heap st !! currBlock (this st) = Some b ->
  RoundUpTo8 sz <= free b ->
  exists st', Alloc node sz st = Ok (currMem (this st)) st' /\ pool_ok st' l.
Proof.
  intros Hok Hcb Hb Hfree.
  eexists. split; [apply (Alloc_bump node sz st b); done|].
  destruct (pool_ok_active _ _ Hok Hcb) as
    (Hl & Hfb & b0 & Hb0 & Hfs & Hsz & Hu8 & Hcm).
  assert (b0 = b) as -> by congruence.
  destruct Hok as (Hc & Hlast & Hmin & _).
  pose proof (RoundUpTo8_range sz) as Hr.
  pose proof (RoundUpTo8_mod8 sz) as Hr8.
  repeat split; cbn [this heap currBlock currMem firstBlock minBlockSize].
  - eapply chain_update; eauto.
  - done.
  - apply Hmin.
  - apply Hmin.
  - unfold cursor_ok; cbn [this heap currBlock currMem].
    destruct (Z.eqb_spec (currBlock (this st)) NULL) as [|_]; [done|].
    eexists. rewrite lookup_insert_eq. split; [reflexivity|].
    rewrite Hcm. destruct b as [nx sb fb]; cbn in *.
    generalize dependent (RoundUpTo8 sz). intros r Hfree Hr Hr8.
    unwrap. cbn [size free next with_free] in *.
    repeat split; Z.div_mod_to_equations; lia.
Qed.

(** Growing the chain keeps it. *)
Lemma Alloc_grow_ok node sz st l b :
  pool_ok st l -> currBlock (this st) <> NULL ->
  heap st !! currBlock (this st) = Some b ->
  free b < RoundUpTo8 sz ->
  node <> NULL -> calloc_fresh node st ->
  exists st', Alloc node sz st = Ok (data_start node) st' /\
              pool_ok st' (l ++ [node]).
Proof.
  intros Hok Hcb Hb Hfree Hnode Hfresh.
  eexists. split; [apply (Alloc_grow node sz st b); done|].
  destruct (pool_ok_active _ _ Hok Hcb) as (Hl & Hfb & _).
  destruct Hok as (Hc & Hlast & Hmin & _).
  pose proof (RoundUpTo8_range sz) as Hr.
  pose proof (RoundUpTo8_mod8 sz) as Hr8.
  pose proof (block_size_range _ sz Hmin) as Hbs.
  pose proof (block_size_max (minBlockSize (this st)) sz) as Hbm.
  repeat split; cbn [this heap currBlock currMem firstBlock minBlockSize].
  - destruct (Z.eqb_spec (firstBlock (this st)) NULL) as [|_]; [done|].
    rewrite Hlast. apply chain_snoc; try done. by rewrite <- Hlast.
  - by rewrite last_last.
  - apply Hmin.
  - apply Hmin.
  - unfold cursor_ok; cbn [this heap currBlock currMem].
    destruct (Z.eqb_spec node NULL) as [|_]; [done|].
    eexists. rewrite lookup_insert_eq. split; [reflexivity|].
    generalize dependent (block_size (minBlockSize (this st)) sz).
    intros bs Hbs Hbm.
    generalize dependent (RoundUpTo8 sz). intros r Hfree Hr Hr8 Hbm.
    unwrap. cbn [size free next] in *.
    repeat split; Z.div_mod_to_equations; lia.
Qed.

(** ** Concrete pools are well formed *)

Lemma new_pool_ok : pool_ok new_pool [].
Proof. repeat split; cbn; unwrap; lia. Qed.

Lemma one_block_ok : pool_ok one_block [1000].
Proof.
  repeat split; try (cbn; unwrap; lia).
  - eexists. split; [reflexivity|]. reflexivity.
  - cbn. eexists. split; [reflexivity|]. vm_compute. repeat split; congruence.
Qed.

Lemma two_blocks_ok : pool_ok two_blocks [1000; 8000].
Proof.
  repeat split; try (cbn; unwrap; lia).
  - eexists. split; [reflexivity|]. cbn. repeat split; try (unwrap; lia).
    eexists. split; [reflexivity|]. reflexivity.
  - cbn. eexists. split; [reflexivity|]. vm_compute. repeat split; congruence.
Qed.

Lemma small_pool_ok : pool_ok small_pool [1000].
Proof.
  repeat split; try (cbn; unwrap; lia).
  - eexists. split; [reflexivity|]. reflexivity.
  - cbn. eexists. split; [reflexivity|]. vm_compute. repeat split; congruence.
Qed.

Lemma one_block_16_ok : pool_ok one_block_16 [1000].
Proof.
  repeat split; try (cbn; unwrap; lia).
  - eexists. split; [reflexivity|]. reflexivity.
  - cbn. eexists. split; [reflexivity|]. vm_compute. repeat split; congruence.
Qed.

(** ** First allocation *)

(** C1.  The claim: on a pool in the Empty state, [Alloc] succeeds, creates
    the first block and dereferences no null pointer.  The code does not do
    so: whatever the storage of the object held, whatever [calloc] hands
    back and whatever size is asked for, the first [Alloc] after
    construction stops at a field access through the null pointer,
    [currBlock->next = node] in [AllocBlock] (or [node->size = size] when
    [calloc] failed). *)
Theorem first_Alloc_null_deref :
  forall (storage : state) (node sz : Z),
    (PoolAllocator_ctor ;;; Alloc node sz) storage = Crash NullDeref.
Proof.
  intros storage node sz. unfold bind at 1.
  destruct (PoolAllocator_ctor_ok storage) as (s' & -> & Hthis & _).
  apply Alloc_no_current. rewrite Hthis. reflexivity.
Qed.

(** ** Unsupported resizing *)

(** C7.  [Realloc] on a pool crashes, whatever the pool and whatever its
    arguments; it never returns. *)
Theorem Realloc_always_crashes :
  forall (mem sz : Z) (st : state), Realloc mem sz st = Crash CrashMe.
Proof. reflexivity. Qed.

(** ** Configuration *)

Lemma SetMinBlockSize_empty n st :
  currBlock (this st) = NULL ->
  SetMinBlockSize n st =
  Ok tt (mkState (mkPool n (currMem (this st)) (currBlock (this st))
                         (firstBlock (this st))) (heap st)).
Proof.
  intros Hcb. unfold SetMinBlockSize, bind, get_this.
  destruct (Z.eqb_spec (currBlock (this st)) NULL); done.
Qed.

Lemma SetMinBlockSize_active n st :
  currBlock (this st) <> NULL -> SetMinBlockSize n st = Crash CrashMe.
Proof.
  intros Hcb. unfold SetMinBlockSize, bind, get_this.
  destruct (Z.eqb_spec (currBlock (this st)) NULL); done.
Qed.

(** C6.  On a well-formed pool with block chain [l], [SetMinBlockSize n]
    returns, with the minimum set to [n] and nothing else changed, exactly
    when there is no block; when a block exists it crashes. *)
Theorem SetMinBlockSize_iff_empty :
  forall (n : Z) (st : state) (l : list Z),
    pool_ok st l ->
    ((exists st', SetMinBlockSize n st = Ok tt st') <-> l = []) /\
    (l = [] ->
     SetMinBlockSize n st =
     Ok tt (mkState (mkPool n (currMem (this st)) (currBlock (this st))
                            (firstBlock (this st))) (heap st))) /\
    (l <> [] -> SetMinBlockSize n st = Crash CrashMe).
Proof.
  intros n st l Hok. pose proof (pool_ok_empty_iff _ _ Hok) as Hiff.
  assert (Hempty : l = [] ->
     SetMinBlockSize n st =
     Ok tt (mkState (mkPool n (currMem (this st)) (currBlock (this st))
                            (firstBlock (this st))) (heap st))).
  { intros Hl. apply SetMinBlockSize_empty. by apply Hiff. }
  assert (Hactive : l <> [] -> SetMinBlockSize n st = Crash CrashMe).
  { intros Hl. apply SetMinBlockSize_active. intros Hcb. by apply Hiff in Hcb. }
  split; [|by split].
  split.
  - intros [st' Hrun]. destruct l as [|a l]; [done|].
    rewrite Hactive in Hrun by done. discriminate.
  - intros Hl. eexists. by apply Hempty.
Qed.

Lemma SetMinBlockSize_iff_empty_witness :
  pool_ok new_pool [] /\
  SetMinBlockSize 8192 new_pool = Ok tt (mkState (mkPool 8192 NULL NULL NULL) ∅) /\
  pool_ok one_block [1000] /\
  SetMinBlockSize 8192 one_block = Crash CrashMe.
Proof.
  split; [exact new_pool_ok|]. split.
  - exact (proj1 (proj2 (SetMinBlockSize_iff_empty 8192 new_pool []
                           new_pool_ok)) eq_refl).
  - split; [exact one_block_ok|].
    apply (proj2 (proj2 (SetMinBlockSize_iff_empty 8192 one_block [1000]
                           one_block_ok))).
    discriminate.
Defined.

(** ** Bulk release *)

(** C5, as stated, fails for a pool whose minimum block size was
    configured: [FreeAll] on a pool of 64-byte blocks leaves a pool object
    with the minimum 64, which is not the object the constructor builds,
    and the next allocation of 8 bytes would ask [calloc] for a block of
    88 bytes where a pool just constructed asks for 4120. *)
Lemma FreeAll_not_as_constructed :
  pool_ok small_pool [1000] /\
  (exists st',
      FreeAll small_pool = Ok tt st' /\
      this st' = mkPool 64 NULL NULL NULL /\
      PoolAllocator_ctor (mkState raw_storage (heap st')) = Ok tt new_pool /\
      this st' <> this new_pool /\
      AllocBlock_request (this st') 8 = 88 /\
      AllocBlock_request (this new_pool) 8 = 4120) /\
  ~ (forall st l st',
        pool_ok st l -> FreeAll st = Ok tt st' ->
        PoolAllocator_ctor (mkState raw_storage (heap st')) = Ok tt st').
Proof.
  assert (Hrun : FreeAll small_pool
                 = Ok tt (mkState (mkPool 64 NULL NULL NULL) ∅))
    by (vm_compute; reflexivity).
  split; [exact small_pool_ok|]. split.
  - eexists. split; [exact Hrun|]. cbn [this heap].
    split; [reflexivity|]. split; [reflexivity|].
    split; [discriminate|]. split; reflexivity.
  - intros Hall.
    specialize (Hall small_pool [1000] _ small_pool_ok Hrun).
    cbn [heap] in Hall. discriminate.
Qed.

(** C5, amended.  On a well-formed pool [FreeAll] returns: the headers of
    the chain are released, the object has no first block, no current
    block and no cursor, and its configured minimum is the one it had.
    The pool it leaves is well formed and empty, and a second [FreeAll]
    returns and changes nothing.  It is, object and heap, the pool that
    constructing an object and configuring that minimum gives, so that
    whatever is called next behaves as on such a pool; it is the pool the
    constructor alone gives when the minimum is the default 4096. *)
Theorem FreeAll_resets :
  forall (st : state) (l : list Z),
    pool_ok st l ->
    exists st',
      FreeAll st = Ok tt st' /\
      firstBlock (this st') = NULL /\
      currBlock (this st') = NULL /\
      currMem (this st') = NULL /\
      minBlockSize (this st') = minBlockSize (this st) /\
      heap st' = release l (heap st) /\
      pool_ok st' [] /\
      FreeAll st' = Ok tt st' /\
      (forall storage : PoolAllocator,
          (PoolAllocator_ctor ;;; SetMinBlockSize (minBlockSize (this st)))
            (mkState storage (heap st'))
          = Ok tt st') /\
      (forall (A : Type) (next_calls : M A) (storage : PoolAllocator),
          (PoolAllocator_ctor ;;; SetMinBlockSize (minBlockSize (this st)) ;;;
           next_calls) (mkState storage (heap st'))
          = next_calls st') /\
      (minBlockSize (this st) = 4096 ->
       forall storage : PoolAllocator,
         PoolAllocator_ctor (mkState storage (heap st')) = Ok tt st').
Proof.
  intros st l Hok. pose proof Hok as (Hc & _ & Hmin & _).
  exists (mkState (emptied (this st)) (release l (heap st))).
  split; [by apply FreeAll_chain|].
  do 5 (split; [reflexivity|]).
  split; [by apply pool_ok_emptied|].
  split.
  { exact (FreeAll_chain (mkState (emptied (this st)) (release l (heap st)))
                         [] eq_refl). }
  assert (Hnew : forall storage : PoolAllocator,
             (PoolAllocator_ctor ;;; SetMinBlockSize (minBlockSize (this st)))
               (mkState storage (release l (heap st)))
             = Ok tt (mkState (emptied (this st)) (release l (heap st))))
    by reflexivity.
  split; [exact Hnew|]. split.
  - intros A next_calls storage. cbn [heap].
    change ((PoolAllocator_ctor ;;; SetMinBlockSize (minBlockSize (this st)) ;;;
             next_calls) (mkState storage (release l (heap st))))
      with (match (PoolAllocator_ctor ;;;
                   SetMinBlockSize (minBlockSize (this st)))
                    (mkState storage (release l (heap st))) with
            | Ok _ s' => next_calls s'
            | Crash f => Crash f
            end).
    by rewrite Hnew.
  - intros H4096 storage. cbn [heap]. unfold emptied. rewrite H4096.
    reflexivity.
Qed.

Lemma FreeAll_resets_witness :
  pool_ok small_pool [1000] /\
  exists st',
    FreeAll small_pool = Ok tt st' /\
    firstBlock (this st') = NULL /\
    currBlock (this st') = NULL /\
    currMem (this st') = NULL /\
    minBlockSize (this st') = 64 /\
    heap st' = release [1000] (heap small_pool) /\
    pool_ok st' [] /\
    FreeAll st' = Ok tt st' /\
    (PoolAllocator_ctor ;;; SetMinBlockSize 64) (mkState raw_storage (heap st'))
    = Ok tt st'.
Proof.
  split; [exact small_pool_ok|].
  destruct (FreeAll_resets small_pool [1000] small_pool_ok)
    as (st' & H1 & H2 & H3 & H4 & H5 & H6 & H7 & H8 & H9 & _).
  exists st'. do 8 (split; [assumption|]). exact (H9 raw_storage).
Defined.

Example FreeAll_two_blocks : FreeAll two_blocks = Ok tt new_pool.
Proof. vm_compute. reflexivity. Qed.

(** C10.  [FreeAll] does not touch the configured minimum block size: on a
    well-formed pool it returns, the minimum afterwards is the minimum
    before, and it is that minimum, not the constructor's 4096, from which
    [AllocBlock] computes the capacity of a block afterwards. *)
Theorem FreeAll_keeps_minBlockSize :
  forall (st : state) (l : list Z),
    pool_ok st l ->
    exists st',
      FreeAll st = Ok tt st' /\
      minBlockSize (this st') = minBlockSize (this st) /\
      (forall S, block_size (minBlockSize (this st')) S
                 = Z.max (minBlockSize (this st)) (RoundUpTo8 S)).
Proof.
  intros st l (Hc & _).
  eexists. split; [by apply FreeAll_chain|].
  split; [reflexivity|].
  intros S. cbn. apply block_size_max.
Qed.

Lemma FreeAll_keeps_minBlockSize_witness :
  pool_ok small_pool [1000] /\
  exists st',
    FreeAll small_pool = Ok tt st' /\
    minBlockSize (this st') = 64 /\
    (forall S, block_size (minBlockSize (this st')) S
               = Z.max 64 (RoundUpTo8 S)).
Proof.
  split; [exact small_pool_ok|].
  exact (FreeAll_keeps_minBlockSize small_pool [1000] small_pool_ok).
Defined.

(** ** The free counters *)

Lemma AllocBlock_frame node S st st' :
  calloc_fresh node st ->
  AllocBlock node S st = Ok tt st' ->
  forall p b, heap st !! p = Some b ->
              exists b', heap st' !! p = Some b' /\ free b' = free b.
Proof.
  intros Hfresh Hrun p b Hp. unfold calloc_fresh in Hfresh.
  assert (Hpn : p <> node) by congruence.
  destruct st as [[m cm cb fb] h]; cbn in *.
  unfold AllocBlock, bind, get_this, calloc in Hrun; cbn in Hrun.
  destruct (Z.eqb_spec node NULL) as [->|Hnode].
  { destruct (fb =? NULL); discriminate. }
  assert (Hrun' :
    store cb (with_next node)
      (mkState (mkPool m (wrap (node + sizeof_MemBlockNode)) cb
                       (if fb =? NULL then node else fb))
               (<[node := mkNode 0 (block_size m S) (block_size m S)]> h))
    = Ok tt (mkState (mkPool (minBlockSize (this st')) (currMem (this st'))
                             cb (firstBlock (this st'))) (heap st'))).
  { destruct (fb =? NULL); cbn in Hrun;
      do 2 (erewrite store_live in Hrun;
            [ cbn [this heap] in Hrun | done
            | cbn [this heap]; rewrite lookup_insert_eq; reflexivity ]);
      cbn in Hrun; rewrite !insert_insert_eq in Hrun;
      destruct (store cb _ _) as [[] s1|] eqn:Hs; try discriminate;
      injection Hrun as <-; unfold store in Hs;
      destruct (cb =? NULL); try discriminate; cbn [this heap] in Hs;
      destruct (_ !! cb); try discriminate; injection Hs as <-; reflexivity. }
  clear Hrun. unfold store in Hrun'.
  destruct (cb =? NULL); [discriminate|]. cbn [this heap] in Hrun'.
  destruct (decide (cb = node)) as [->|Hcn].
  - rewrite lookup_insert_eq in Hrun'. injection Hrun' as _ _ _ <-.
    exists b. by rewrite !lookup_insert_ne.
  - rewrite lookup_insert_ne in Hrun' by done.
    destruct (h !! cb) as [bc|] eqn:Hbc; [|discriminate].
    injection Hrun' as _ _ _ <-.
    destruct (decide (p = cb)) as [->|Hpc].
    + exists (with_next node bc). rewrite lookup_insert_eq.
      split; [done|]. cbn. congruence.
    + exists b. by rewrite !lookup_insert_ne.
Qed.

Lemma Alloc_wild node sz st :
  currBlock (this st) <> NULL ->
  heap st !! currBlock (this st) = None ->
  Alloc node sz st = Crash WildDeref.
Proof.
  intros Hcb Hb. unfold Alloc, bind, get_this, load.
  destruct (Z.eqb_spec (currBlock (this st)) NULL); [done|].
  by rewrite Hb.
Qed.

(** [Alloc] when a block is needed and the platform heap is exhausted. *)
Lemma Alloc_calloc_failed sz st b :
  currBlock (this st) <> NULL ->
  heap st !! currBlock (this st) = Some b ->
  free b < RoundUpTo8 sz ->
  Alloc NULL sz st = Crash NullDeref.
Proof.
  intros Hcb Hb Hfree. unfold Alloc. unfold bind at 1. unfold get_this at 1.
  destruct (Z.eqb_spec (currBlock (this st)) NULL) as [|_]; [done|].
  unfold bind at 1 2. rewrite (load_live _ b) by done. cbn.
  destruct (Z.ltb_spec (free b) (RoundUpTo8 sz)); [|lia].
  unfold bind at 1. by rewrite AllocBlock_calloc_failed.
Qed.

(** Every way in which [Alloc] returns. *)
Lemma Alloc_Ok_inv node sz st mem st' :
  Alloc node sz st = Ok mem st' ->
  currBlock (this st) <> NULL /\
  exists b, heap st !! currBlock (this st) = Some b /\
            (RoundUpTo8 sz <= free b \/
             (free b < RoundUpTo8 sz /\ node <> NULL)).
Proof.
  intros Hrun.
  destruct (decide (currBlock (this st) = NULL)) as [Hcb|Hcb].
  { rewrite Alloc_no_current in Hrun; done. }
  split; [done|].
  destruct (heap st !! currBlock (this st)) as [b|] eqn:Hb.
  2: { rewrite Alloc_wild in Hrun; done. }
  exists b. split; [done|].
  destruct (Z.le_gt_cases (RoundUpTo8 sz) (free b)) as [Hle|Hgt]; [auto|].
  right. split; [lia|]. intros ->.
  rewrite (Alloc_calloc_failed sz st b) in Hrun by (done || lia). done.
Qed.

Lemma Alloc_frame node sz st mem st' :
  calloc_fresh node st ->
  Alloc node sz st = Ok mem st' ->
  forall p b, heap st !! p = Some b ->
              exists b', heap st' !! p = Some b' /\ free b' <= free b.
Proof.
  intros Hfresh Hrun p b Hp.
  destruct (Alloc_Ok_inv _ _ _ _ _ Hrun) as (Hcb & bc & Hbc & [Hle|[Hgt Hnode]]).
  - rewrite (Alloc_bump node sz st bc) in Hrun by done.
    injection Hrun as _ <-. cbn [heap].
    destruct (decide (p = currBlock (this st))) as [->|Hpc].
    + rewrite lookup_insert_eq. eexists. split; [reflexivity|].
      assert (bc = b) as -> by congruence. cbn.
      pose proof (RoundUpTo8_range sz) as Hr.
      generalize dependent (RoundUpTo8 sz). intros r Hle Hr.
      unwrap. Z.div_mod_to_equations. lia.
    + rewrite lookup_insert_ne by done. exists b. split; [done|lia].
  - rewrite (Alloc_grow node sz st bc) in Hrun by done.
    injection Hrun as _ <-. cbn [heap].
    assert (Hpn : p <> node) by (unfold calloc_fresh in Hfresh; congruence).
    rewrite lookup_insert_ne by done.
    destruct (decide (p = currBlock (this st))) as [->|Hpc].
    + rewrite lookup_insert_eq. eexists. split; [reflexivity|].
      assert (bc = b) as -> by congruence. cbn. lia.
    + rewrite lookup_insert_ne by done. exists b. split; [done|lia].
Qed.

(** The lookup loop reads the pool and changes nothing. *)
Lemma FindNth_loop_pure : forall fuel sz p n s r s',
  FindNth_loop fuel sz p n s = Ok r s' -> s' = s.
Proof.
  induction fuel as [|fuel IH]; intros sz p n s r s'; cbn [FindNth_loop].
  - destruct (p =? NULL); [|discriminate]. by intros [= _ <-].
  - destruct (p =? NULL); [by intros [= _ <-]|].
    unfold bind at 1. unfold load.
    destruct (p =? NULL); [discriminate|].
    destruct (heap s !! p) as [b|]; [|discriminate].
    destruct (n =? 0); [discriminate|].
    destruct (Used b / n >? n); [by intros [= _ <-]|].
    apply IH.
Qed.

Lemma FindNthPieceOfSize_pure sz n st r st' :
  FindNthPieceOfSize sz n st = Ok r st' -> st' = st.
Proof. unfold FindNthPieceOfSize, bind, get_this. apply FindNth_loop_pure. Qed.

(** One call other than [FreeAll] lowers or keeps every free counter. *)
Lemma pool_step_free st st' :
  pool_step st st' ->
  forall p b, heap st !! p = Some b ->
              exists b', heap st' !! p = Some b' /\ free b' <= free b.
Proof.
  intros (c & r & Hc & Hok & Hrun) p b Hp.
  destruct c as [n| |node sz|mem sz|mem|node sz|sz n]; cbn in *.
  - unfold bind in Hrun.
    destruct (SetMinBlockSize n st) as [[] s1|] eqn:Hs; [|discriminate].
    injection Hrun as _ <-.
    unfold SetMinBlockSize, bind, get_this, CrashIf in Hs.
    destruct (negb _); [discriminate|]. cbn in Hs. injection Hs as <-.
    exists b. split; [exact Hp|lia].
  - discriminate.
  - unfold bind in Hrun.
    destruct (AllocBlock node sz st) as [[] s1|] eqn:Hs; [|discriminate].
    injection Hrun as _ <-. destruct Hok as [_ Hfresh].
    destruct (AllocBlock_frame _ _ _ _ Hfresh Hs p b Hp) as (b' & Hb' & Heq).
    exists b'. split; [done|lia].
  - discriminate.
  - injection Hrun as _ <-. exists b. split; [done|lia].
  - destruct Hok as [_ Hfresh].
    exact (Alloc_frame _ _ _ _ _ Hfresh Hrun p b Hp).
  - apply FindNthPieceOfSize_pure in Hrun. subst st'.
    exists b. split; [done|lia].
Qed.

(** C8.  Along any run of calls other than [FreeAll], each of which returns
    (with [calloc] handing back fresh memory), every block that exists
    stays in the heap and its free counter never grows. *)
Theorem free_only_decreases :
  forall (st st' : state),
    rtc pool_step st st' ->
    forall (p : Z) (b : MemBlockNode),
      heap st !! p = Some b ->
      exists b', heap st' !! p = Some b' /\ free b' <= free b.
Proof.
  intros st st' Hrun. induction Hrun as [st|st st1 st' Hstep _ IH].
  - intros p b Hp. exists b. split; [done|lia].
  - intros p b Hp.
    destruct (pool_step_free _ _ Hstep p b Hp) as (b1 & Hb1 & Hle1).
    destruct (IH p b1 Hb1) as (b' & Hb' & Hle').
    exists b'. split; [done|lia].
Qed.

Lemma free_only_decreases_witness :
  rtc pool_step one_block one_block_16_8000 /\
  heap one_block !! 1000 = Some (mkNode NULL 4096 4096) /\
  exists b', heap one_block_16_8000 !! 1000 = Some b' /\ free b' <= 4096.
Proof.
  assert (Hrun : rtc pool_step one_block one_block_16_8000).
  { apply (rtc_l _ _ one_block_16).
    - exists (CAlloc 9000 16), 1024. repeat split; try (vm_compute; congruence).
    - apply rtc_once.
      exists (CAlloc 9000 8000), 9024. repeat split; try (vm_compute; congruence). }
  split; [exact Hrun|]. split; [reflexivity|].
  exact (free_only_decreases one_block one_block_16_8000 Hrun 1000
           (mkNode NULL 4096 4096) eq_refl).
Defined.

(** ** Rounding and alignment *)

(** The length [AllocBlock] computes is the one it hands to [calloc]. *)
Lemma AllocBlock_request_passed node minSize st :
  AllocBlock node minSize st =
  (a <- get_this ;;
   let size := block_size (minBlockSize a) minSize in
   node <- calloc node 1 (AllocBlock_request a minSize) ;;
   (if firstBlock a =? NULL then set_firstBlock node else ret tt) ;;;
   set_currMem (wrap (node + sizeof_MemBlockNode)) ;;;
   store node (with_size size) ;;;
   store node (with_free size) ;;;
   a <- get_this ;;
   store (currBlock a) (with_next node) ;;;
   set_currBlock node) st.
Proof. reflexivity. Qed.

(** C3, as stated, fails at the largest sizes.  [Alloc(SIZE_MAX)] on a
    pool with a usable block returns the cursor and leaves the pool as it
    was, so the cursor advanced by 0 bytes and nothing was taken from the
    free counter, while [SIZE_MAX] rounded up to a multiple of 8 is
    [2^64].  And [Alloc(SIZE_MAX - 7)], a multiple of 8, needs a new block:
    [calloc] is asked for 16 bytes, the address returned is 9024 and the
    cursor afterwards is 9016, eight bytes before it. *)
Lemma Alloc_SIZE_MAX_consumes_nothing :
  in_size_t SIZE_MAX /\
  Alloc 9000 SIZE_MAX one_block = Ok 1024 one_block /\
  round_up_8 SIZE_MAX = SIZE_MOD /\
  ~ (exists st' b',
        Alloc 9000 SIZE_MAX one_block = Ok 1024 st' /\
        currMem (this st') - 1024 = round_up_8 SIZE_MAX /\
        heap st' !! 1000 = Some b' /\
        4096 - free b' = round_up_8 SIZE_MAX) /\
  (exists st',
      Alloc 9000 (SIZE_MAX - 7) one_block = Ok 9024 st' /\
      currMem (this st') = 9016 /\
      round_up_8 (SIZE_MAX - 7) = SIZE_MAX - 7 /\
      AllocBlock_request (this one_block) (SIZE_MAX - 7) = 16).
Proof.
  assert (Hrun : Alloc 9000 SIZE_MAX one_block = Ok 1024 one_block)
    by (vm_compute; reflexivity).
  split; [vm_compute; split; congruence|].
  split; [exact Hrun|].
  split; [reflexivity|].
  split.
  - intros (st' & b' & Hrun' & Hcur & _).
    rewrite Hrun in Hrun'. injection Hrun' as <-.
    vm_compute in Hcur. discriminate.
  - eexists. split; [vm_compute; reflexivity|].
    repeat split; vm_compute; reflexivity.
Qed.

(** C3, amended.  For a request of [s <= SIZE_MAX - 7] bytes on a
    well-formed pool whose current block lies in the address space, with
    [calloc] handing back, when the current block has too little room, a
    fresh block that lies in the address space with its header and its
    capacity, [Alloc] returns; the cursor then stands exactly [s] rounded up to a multiple
    of 8 beyond the address returned; that amount is what the free
    counter of the block served from lost (counted from its capacity when
    the block is new); the address returned lies a multiple of 8 behind
    the start of that block's data, hence is 8-aligned when that start
    is; a new block was asked of [calloc] with room for header and
    capacity; and the pool is well formed again. *)
Theorem Alloc_advances_by_rounded_size :
  forall (node s : Z) (st : state) (l : list Z) (b : MemBlockNode),
    0 <= s <= SIZE_MAX - 7 ->
    pool_ok st l ->
    currBlock (this st) <> NULL ->
    heap st !! currBlock (this st) = Some b ->
    block_in_range (currBlock (this st)) (size b) ->
    (free b < RoundUpTo8 s ->
     block_in_range node (block_size (minBlockSize (this st)) s) /\
     calloc_fresh node st) ->
    exists mem st' b' l',
      Alloc node s st = Ok mem st' /\
      currMem (this st') = mem + round_up_8 s /\
      currMem (this st') - mem = round_up_8 s /\
      heap st' !! currBlock (this st') = Some b' /\
      ((currBlock (this st') = currBlock (this st) /\
        free b - free b' = round_up_8 s) \/
       (currBlock (this st') = node /\
        size b' - free b' = round_up_8 s /\
        AllocBlock_request (this st) s = sizeof_MemBlockNode + size b')) /\
      (mem - data_start (currBlock (this st'))) mod 8 = 0 /\
      (data_start (currBlock (this st')) mod 8 = 0 -> mem mod 8 = 0) /\
      pool_ok st' l'.
Proof.
  intros node s st l b Hs Hok Hcb Hb [Hcb0 Hcbfit] Hnew.
  destruct (pool_ok_active _ _ Hok Hcb) as
    (Hl & Hfb & b0 & Hb0 & Hfs & Hsz & Hu8 & Hcm).
  assert (b0 = b) as -> by congruence.
  pose proof (RoundUpTo8_round_up_8 s Hs) as Hround.
  pose proof (RoundUpTo8_range s) as Hr.
  pose proof (RoundUpTo8_mod8 s) as Hr8.
  destruct (Z.le_gt_cases (RoundUpTo8 s) (free b)) as [Hle|Hgt].
  - destruct (Alloc_bump_ok node s st l b Hok Hcb Hb Hle) as (st' & Hrun & Hok').
    rewrite (Alloc_bump node s st b) in Hrun by done.
    injection Hrun as <-.
    eexists (currMem (this st)), _,
      (with_free (wrap (free b - RoundUpTo8 s)) b), l.
    split; [apply (Alloc_bump node s st b); done|].
    cbn [this heap currBlock currMem].
    assert (Hexact : wrap (currMem (this st) + RoundUpTo8 s)
                     = currMem (this st) + round_up_8 s).
    { rewrite <- Hround, Hcm. destruct b as [nx sb fb].
      remember (RoundUpTo8 s) as r eqn:Er. clear Er Hround.
      unwrap. cbn [size free] in *.
      rewrite (Z.mod_small (currBlock (this st) + 24)) by lia.
      rewrite (Z.mod_small (sb - fb)) by lia.
      rewrite (Z.mod_small (currBlock (this st) + 24 + (sb - fb))) by lia.
      apply Z.mod_small. lia. }
    split; [exact Hexact|].
    split; [rewrite Hexact; lia|].
    split; [by rewrite lookup_insert_eq|].
    split.
    { left. split; [done|]. cbn. rewrite <- Hround.
      rewrite wrap_small by (unwrap; lia). lia. }
    assert (Hoff : (currMem (this st) - data_start (currBlock (this st)))
                   mod 8 = 0).
    { rewrite Hcm. by apply wrap_offset_mod8. }
    split; [exact Hoff|].
    split; [|exact Hok'].
    intros Hal. by apply (aligned_offset _ _ Hoff).
  - assert (Hlt : free b < RoundUpTo8 s) by lia.
    destruct (Hnew Hlt) as [[Hn0 Hnfit] Hfresh].
    assert (Hnode : node <> NULL) by (unwrap; lia).
    destruct (Alloc_grow_ok node s st l b Hok Hcb Hb Hlt Hnode Hfresh)
      as (st' & Hrun & Hok').
    rewrite (Alloc_grow node s st b) in Hrun by done.
    injection Hrun as <-.
    eexists (data_start node), _, _, (l ++ [node]).
    split; [apply (Alloc_grow node s st b); done|].
    cbn [this heap currBlock currMem].
    pose proof (block_size_max (minBlockSize (this st)) s) as Hbm.
    destruct Hok as (_ & _ & Hmin & _).
    pose proof (block_size_range _ s Hmin) as Hbs.
    assert (Hexact : wrap (data_start node + RoundUpTo8 s)
                     = data_start node + round_up_8 s).
    { rewrite <- Hround.
      remember (block_size (minBlockSize (this st)) s) as bs eqn:Ebs.
      remember (RoundUpTo8 s) as r eqn:Er. clear Er Ebs Hround.
      unwrap. rewrite (Z.mod_small (node + 24)) by lia.
      apply Z.mod_small. lia. }
    split; [exact Hexact|].
    split; [rewrite Hexact; lia|].
    split; [by rewrite lookup_insert_eq|].
    split.
    { right. split; [done|]. cbn [size free]. rewrite <- Hround.
      split.
      - rewrite wrap_small by (unwrap; lia). lia.
      - unfold AllocBlock_request. apply wrap_small.
        remember (block_size (minBlockSize (this st)) s) as bs eqn:Ebs.
        clear Ebs. unwrap. lia. }
    split; [by rewrite Z.sub_diag|].
    split; [done|exact Hok'].
Qed.

Lemma Alloc_advances_by_rounded_size_witness :
  0 <= 8000 <= SIZE_MAX - 7 /\
  pool_ok one_block_16 [1000] /\
  currBlock (this one_block_16) <> NULL /\
  heap one_block_16 !! currBlock (this one_block_16)
  = Some (mkNode NULL 4096 4080) /\
  block_in_range (currBlock (this one_block_16)) 4096 /\
  4080 < RoundUpTo8 8000 /\
  block_in_range 9000 (block_size (minBlockSize (this one_block_16)) 8000) /\
  calloc_fresh 9000 one_block_16 /\
  exists st',
    Alloc 9000 8000 one_block_16 = Ok 9024 st' /\
    currMem (this st') = 9024 + round_up_8 8000 /\
    currMem (this st') - 9024 = 8000 /\
    (9024 - data_start (currBlock (this st'))) mod 8 = 0 /\
    AllocBlock_request (this one_block_16) 8000 = 8024.
Proof.
  assert (Hs : 0 <= 8000 <= SIZE_MAX - 7) by (vm_compute; split; congruence).
  assert (Hcb : currBlock (this one_block_16) <> NULL) by discriminate.
  assert (Hb : heap one_block_16 !! currBlock (this one_block_16)
               = Some (mkNode NULL 4096 4080)) by reflexivity.
  assert (Hfit : block_in_range (currBlock (this one_block_16)) 4096)
    by (vm_compute; split; [reflexivity|congruence]).
  assert (Hfull : 4080 < RoundUpTo8 8000) by (vm_compute; reflexivity).
  assert (Hrange : block_in_range 9000
                     (block_size (minBlockSize (this one_block_16)) 8000))
    by (vm_compute; split; [reflexivity|congruence]).
  assert (Hfresh : calloc_fresh 9000 one_block_16) by reflexivity.
  split; [exact Hs|]. split; [exact one_block_16_ok|]. split; [exact Hcb|].
  split; [exact Hb|]. split; [exact Hfit|]. split; [exact Hfull|].
  split; [exact Hrange|]. split; [exact Hfresh|].
  destruct (Alloc_advances_by_rounded_size 9000 8000 one_block_16 [1000] _
              Hs one_block_16_ok Hcb Hb Hfit (fun _ => conj Hrange Hfresh))
    as (mem & st' & b' & l' & Hrun & Hcur & Hadv & Hb' & Hfree & Hoff & _).
  assert (Hmem : mem = 9024).
  { assert (Hrun2 : exists st2, Alloc 9000 8000 one_block_16 = Ok 9024 st2)
      by (eexists; vm_compute; reflexivity).
    destruct Hrun2 as (st2 & Hrun2). rewrite Hrun in Hrun2.
    by injection Hrun2 as -> _. }
  subst mem. exists st'. split; [exact Hrun|]. split; [exact Hcur|].
  split; [exact Hadv|]. split; [exact Hoff|].
  vm_compute. reflexivity.
Defined.

(** ** Block growth *)

(** C4, as stated, fails at the largest sizes.  [AllocBlock(SIZE_MAX)] on
    a pool of 4096-byte blocks chains in a block of capacity 4096, while
    the maximum of 4096 and [SIZE_MAX] rounded up to a multiple of 8 is
    [2^64], and the request of [SIZE_MAX] bytes does not fit in the block.
    And [Alloc(SIZE_MAX - 7)] creates a block whose header says
    [SIZE_MAX - 7] bytes of capacity, while the chunk asked of [calloc]
    for it has 16 bytes, fewer than the header alone. *)
Lemma AllocBlock_SIZE_MAX_capacity :
  in_size_t SIZE_MAX /\
  (exists st',
      AllocBlock 9000 SIZE_MAX one_block = Ok tt st' /\
      heap st' !! 9000 = Some (mkNode NULL 4096 4096)) /\
  Z.max 4096 (round_up_8 SIZE_MAX) = SIZE_MOD /\
  ~ (exists st' nb,
        AllocBlock 9000 SIZE_MAX one_block = Ok tt st' /\
        heap st' !! 9000 = Some nb /\
        size nb = Z.max (minBlockSize (this one_block)) (round_up_8 SIZE_MAX) /\
        SIZE_MAX <= size nb) /\
  (exists mem st' nb,
      Alloc 9000 (SIZE_MAX - 7) one_block = Ok mem st' /\
      heap st' !! 9000 = Some nb /\
      size nb = SIZE_MAX - 7 /\
      AllocBlock_request (this one_block) (SIZE_MAX - 7) = 16 /\
      16 < sizeof_MemBlockNode).
Proof.
  assert (Hrun : exists st',
             AllocBlock 9000 SIZE_MAX one_block = Ok tt st' /\
             heap st' !! 9000 = Some (mkNode NULL 4096 4096)).
  { eexists. split; vm_compute; reflexivity. }
  split; [vm_compute; split; congruence|].
  split; [exact Hrun|].
  split; [reflexivity|].
  split.
  - intros (st' & nb & Hrun' & Hnb & Hsize & _).
    destruct Hrun as (st1 & Hrun & Hnb1).
    rewrite Hrun in Hrun'. injection Hrun' as <-.
    rewrite Hnb1 in Hnb. injection Hnb as <-.
    vm_compute in Hsize. discriminate.
  - eexists _, _, _. split; [vm_compute; reflexivity|].
    split; [vm_compute; reflexivity|].
    repeat split; vm_compute; reflexivity.
Qed.

(** C4, amended.  For a request of [S] bytes on a pool that has a
    current block, with [calloc] handing back a fresh block that, with
    its header and the larger of the configured minimum and [S] rounded
    up to a multiple of 8, lies in the address space (which no block does
    for [S] above [SIZE_MAX - 31]),
    [AllocBlock] returns and the new block, now the current one with the
    cursor at the start of its data, has that larger number as capacity,
    all of it free: exactly the rounded [S] when that exceeds the minimum,
    and never less than [S]; and the chunk asked of [calloc] for it has
    room for the header and that capacity, so the request fits in the
    block. *)
Theorem AllocBlock_capacity :
  forall (node S : Z) (st : state) (b : MemBlockNode),
    0 <= S ->
    currBlock (this st) <> NULL ->
    heap st !! currBlock (this st) = Some b ->
    block_in_range node (Z.max (minBlockSize (this st)) (round_up_8 S)) ->
    calloc_fresh node st ->
    exists st' nb,
      AllocBlock node S st = Ok tt st' /\
      heap st' !! node = Some nb /\
      size nb = Z.max (minBlockSize (this st)) (round_up_8 S) /\
      free nb = size nb /\
      (minBlockSize (this st) < round_up_8 S -> size nb = round_up_8 S) /\
      S <= size nb /\
      AllocBlock_request (this st) S = sizeof_MemBlockNode + size nb /\
      sizeof_MemBlockNode + S <= AllocBlock_request (this st) S /\
      currBlock (this st') = node /\
      currMem (this st') = data_start node /\
      minBlockSize (this st') = minBlockSize (this st).
Proof.
  intros node S st b HS0 Hcb Hb [Hn0 Hnfit] Hfresh.
  assert (Hnode : node <> NULL) by (unwrap; lia).
  assert (Hne : currBlock (this st) <> node)
    by (unfold calloc_fresh in Hfresh; congruence).
  pose proof (round_up_8_least S) as (Hle & _).
  assert (HS : 0 <= S <= SIZE_MAX - 7) by (unwrap; lia).
  assert (Hreq : AllocBlock_request (this st) S
                 = sizeof_MemBlockNode
                   + Z.max (minBlockSize (this st)) (round_up_8 S)).
  { unfold AllocBlock_request.
    rewrite block_size_max, (RoundUpTo8_round_up_8 S HS).
    apply wrap_small.
    remember (Z.max (minBlockSize (this st)) (round_up_8 S)) as cap eqn:Ecap.
    assert (S <= cap) by lia. clear Ecap. unwrap. lia. }
  eexists _, _. split; [apply (AllocBlock_active node S st b); done|].
  cbn [this heap currBlock currMem minBlockSize].
  split; [rewrite lookup_insert_ne by done; by rewrite lookup_insert_eq|].
  cbn [size free]. rewrite Hreq.
  rewrite block_size_max, (RoundUpTo8_round_up_8 S HS).
  repeat split; try done; lia.
Qed.

Lemma AllocBlock_capacity_witness :
  0 <= 5000 /\
  currBlock (this one_block) <> NULL /\
  heap one_block !! currBlock (this one_block) = Some (mkNode NULL 4096 4096) /\
  block_in_range 9000
    (Z.max (minBlockSize (this one_block)) (round_up_8 5000)) /\
  calloc_fresh 9000 one_block /\
  exists st' nb,
    AllocBlock 9000 5000 one_block = Ok tt st' /\
    heap st' !! 9000 = Some nb /\
    size nb = Z.max 4096 (round_up_8 5000) /\
    size nb = 5000 /\
    AllocBlock_request (this one_block) 5000 = 5024.
Proof.
  assert (H1 : 0 <= 5000) by lia.
  assert (H3 : currBlock (this one_block) <> NULL) by discriminate.
  assert (H4 : heap one_block !! currBlock (this one_block)
               = Some (mkNode NULL 4096 4096)) by reflexivity.
  assert (H5 : block_in_range 9000
                 (Z.max (minBlockSize (this one_block)) (round_up_8 5000)))
    by (vm_compute; split; [reflexivity|congruence]).
  assert (H6 : calloc_fresh 9000 one_block) by reflexivity.
  do 5 (split; [assumption|]).
  destruct (AllocBlock_capacity 9000 5000 one_block _ H1 H3 H4 H5 H6)
    as (st' & nb & Hrun & Hnb & Hsize & _ & Hbig & _ & Hreq & _).
  exists st', nb. split; [exact Hrun|]. split; [exact Hnb|].
  split; [exact Hsize|].
  assert (Hs5 : size nb = 5000) by (apply Hbig; vm_compute; reflexivity).
  split; [exact Hs5|]. rewrite Hreq, Hs5. reflexivity.
Defined.

(** ** Indexed lookup *)

(** C2.  The claim: after [N] allocations of one size [E],
    [FindNthPieceOfSize(E, i)] is the address the [i]-th allocation
    returned, for every [i < N], and null for an index beyond the pieces
    there are.  The code does not do so.  Eleven allocations of 8 bytes
    from a block with room for all of them return the addresses 1024,
    1032, ..., 1104; the lookup of piece 8 finds its address, but the
    lookups of pieces 9 and 10 answer null and the lookup of piece 0
    divides by zero.  After three such allocations the lookup of piece 3,
    which does not exist, answers the address 1048. *)
Theorem FindNthPieceOfSize_uniform_pieces :
  exists st11 st3,
    Alloc_many (replicate 11 9000) 8 one_block
    = Ok [1024; 1032; 1040; 1048; 1056; 1064; 1072; 1080; 1088; 1096; 1104]
         st11 /\
    FindNthPieceOfSize 8 8 st11 = Ok 1088 st11 /\
    FindNthPieceOfSize 8 9 st11 = Ok NULL st11 /\
    FindNthPieceOfSize 8 10 st11 = Ok NULL st11 /\
    FindNthPieceOfSize 8 0 st11 = Crash DivByZero /\
    Alloc_many (replicate 3 9000) 8 one_block = Ok [1024; 1032; 1040] st3 /\
    FindNthPieceOfSize 8 3 st3 = Ok 1048 st3.
Proof.
  eexists _, _. split; [vm_compute; reflexivity|].
  do 4 (split; [vm_compute; reflexivity|]).
  split; [vm_compute; reflexivity|].
  vm_compute; reflexivity.
Qed.

(** On a well-formed pool the loop bound of the model is never what stops
    the lookup: the loop leaves through null, an answer or a fault of the
    code. *)
Lemma FindNth_loop_chain l : forall fuel sz p n s,
  chain (heap s) p l -> (length l <= fuel)%nat ->
  FindNth_loop fuel sz p n s <> Crash OutOfFuel.
Proof.
  induction l as [|a l IH]; intros fuel sz p n s Hc Hfuel.
  - cbn in Hc. subst p. destruct fuel; discriminate.
  - destruct Hc as (<- & Hp & b & Hb & Hc).
    destruct fuel as [|fuel]; [cbn in Hfuel; lia|].
    cbn [FindNth_loop]. destruct (Z.eqb_spec p NULL) as [|_]; [done|].
    unfold bind at 1. rewrite (load_live _ b) by done.
    destruct (n =? 0); [discriminate|].
    destruct (Used b / n >? n); [discriminate|].
    apply IH; [done|]. cbn in Hfuel. lia.
Qed.

Lemma FindNthPieceOfSize_fuel sz n st l :
  pool_ok st l -> FindNthPieceOfSize sz n st <> Crash OutOfFuel.
Proof.
  intros (Hc & _). unfold FindNthPieceOfSize, bind, get_this.
  apply (FindNth_loop_chain l); [done|].
  pose proof (chain_length_le _ _ _ Hc). lia.
Qed.

(** ** Fixed array helper *)

(** C9, as stated, fails where the byte count wraps: for elements of 8
    bytes and an inline budget of 64 bytes, a request for [2^61] elements
    exceeds the budget, yet the heap buffer asked of [malloc] has 0 bytes,
    not [2^61] elements. *)
Lemma FixedArray_request_wraps :
  in_size_t (2 ^ 61) /\
  64 < 2 ^ 61 * 8 /\
  FixedArray.malloc_request (FixedArray.ctor 8 64 5000 9000 (2 ^ 61)) = Some 0 /\
  FixedArray.malloc_request (FixedArray.ctor 8 64 5000 9000 (2 ^ 61))
  <> Some (2 ^ 61 * 8).
Proof.
  split; [vm_compute; split; congruence|].
  split; [reflexivity|]. split; [reflexivity|].
  vm_compute; discriminate.
Qed.

(** C9, amended.  For elements of positive size, a budget that is a
    non-negative [int], and every element count: no heap buffer is asked
    for, and [Get] answers the inline buffer, exactly when
    [count * sizeof(T) <= budget], which is when [count] does not exceed
    the number of elements of the inline buffer; otherwise [malloc] is
    asked for [count * sizeof(T)] bytes reduced to [size_t], which is
    exactly [count] elements when that product is at most [SIZE_MAX], and
    [Get] answers the heap buffer [malloc] handed back. *)
Theorem FixedArray_storage :
  forall (sizeof_T budget self p count : Z),
    0 < sizeof_T ->
    0 <= budget < 2 ^ 31 ->
    in_size_t count ->
    let r := FixedArray.ctor sizeof_T budget self p count in
    (count * sizeof_T <= budget <-> count <= FixedArray.stackEls sizeof_T budget) /\
    (count * sizeof_T <= budget ->
     FixedArray.malloc_request r = None /\
     FixedArray.Get (FixedArray.obj r) = self) /\
    (budget < count * sizeof_T ->
     FixedArray.malloc_request r = Some (wrap (count * sizeof_T)) /\
     (count * sizeof_T <= SIZE_MAX ->
      FixedArray.malloc_request r = Some (count * sizeof_T)) /\
     (p <> NULL -> FixedArray.Get (FixedArray.obj r) = p)).
Proof.
  intros sizeof_T budget self p count Hs Hb Hc r.
  assert (Hels : FixedArray.stackEls sizeof_T budget = budget / sizeof_T).
  { unfold FixedArray.stackEls. rewrite wrap_small; [done|]. unwrap. lia. }
  assert (Hiff : count * sizeof_T <= budget <-> count <= budget / sizeof_T).
  { split; intros H.
    - apply Z.div_le_lower_bound; lia.
    - pose proof (Z.mul_div_le budget sizeof_T Hs). nia. }
  subst r. unfold FixedArray.ctor. rewrite Hels.
  split; [exact Hiff|]. split.
  - intros Hle. apply Hiff in Hle.
    destruct (Z.gtb_spec count (budget / sizeof_T)); [lia|]. done.
  - intros Hgt.
    destruct (Z.gtb_spec count (budget / sizeof_T)) as [_|Hle];
      [|apply Hiff in Hle; lia].
    cbn. split; [done|]. split.
    + intros Hfit. rewrite wrap_small; [done|]. unwrap. nia.
    + intros Hp. unfold FixedArray.Get. cbn.
      by destruct (Z.eqb_spec p NULL).
Qed.

Lemma FixedArray_storage_witness :
  0 < 8 /\ 0 <= 64 < 2 ^ 31 /\ in_size_t 8 /\ in_size_t 9 /\
  FixedArray.Get (FixedArray.obj (FixedArray.ctor 8 64 5000 9000 8)) = 5000 /\
  FixedArray.malloc_request (FixedArray.ctor 8 64 5000 9000 9) = Some 72 /\
  FixedArray.Get (FixedArray.obj (FixedArray.ctor 8 64 5000 9000 9)) = 9000.
Proof.
  assert (H1 : 0 < 8) by lia.
  assert (H2 : 0 <= 64 < 2 ^ 31) by lia.
  assert (H3 : in_size_t 8) by (vm_compute; split; congruence).
  assert (H4 : in_size_t 9) by (vm_compute; split; congruence).
  do 4 (split; [assumption|]).
  pose proof (FixedArray_storage 8 64 5000 9000 8 H1 H2 H3) as (_ & Hin & _).
  pose proof (FixedArray_storage 8 64 5000 9000 9 H1 H2 H4) as (_ & _ & Hout).
  split; [apply Hin; lia|].
  destruct Hout as (_ & Hreq & Hget); [lia|].
  split; [apply Hreq; vm_compute; discriminate|apply Hget; discriminate].
Defined.

(** ** The invariant along runs *)

Lemma AllocBlock_Ok_inv node S st st' :
  AllocBlock node S st = Ok tt st' ->
  node <> NULL /\ currBlock (this st) <> NULL.
Proof.
  intros Hrun. split.
  - intros ->. by rewrite AllocBlock_calloc_failed in Hrun.
  - intros Hcb. by rewrite AllocBlock_no_current in Hrun.
Qed.

(** Chaining in a block by hand keeps the invariant. *)
Lemma AllocBlock_ok node S st l :
  pool_ok st l -> currBlock (this st) <> NULL ->
  node <> NULL -> calloc_fresh node st ->
  exists st', AllocBlock node S st = Ok tt st' /\ pool_ok st' (l ++ [node]).
Proof.
  intros Hok Hcb Hnode Hfresh.
  destruct (pool_ok_active _ _ Hok Hcb) as (Hl & Hfb & b & Hb & _).
  assert (Hne : node <> currBlock (this st))
    by (unfold calloc_fresh in Hfresh; congruence).
  eexists. split; [apply (AllocBlock_active node S st b); done|].
  destruct Hok as (Hc & Hlast & Hmin & _).
  pose proof (block_size_range _ S Hmin) as Hbs.
  repeat split; cbn [this heap currBlock currMem firstBlock minBlockSize].
  - destruct (Z.eqb_spec (firstBlock (this st)) NULL) as [|_]; [done|].
    rewrite (insert_insert_ne _ (currBlock (this st)) node) by done.
    rewrite Hlast. apply chain_snoc; try done. by rewrite <- Hlast.
  - by rewrite last_last.
  - apply Hmin.
  - apply Hmin.
  - unfold cursor_ok; cbn [this heap currBlock currMem].
    destruct (Z.eqb_spec node NULL) as [|_]; [done|].
    eexists. rewrite lookup_insert_ne by done. rewrite lookup_insert_eq.
    split; [reflexivity|].
    generalize dependent (block_size (minBlockSize (this st)) S).
    intros bs Hbs. unwrap. cbn [size free next].
    rewrite Z.sub_diag. repeat split; try lia.
    rewrite Z.add_0_r. by rewrite Z.mod_mod.
Qed.

(** Every call that returns keeps the invariant. *)
Lemma any_step_ok st st' l :
  any_step st st' -> pool_ok st l -> exists l', pool_ok st' l'.
Proof.
  intros (c & r & Hcall & Hrun) Hok.
  destruct c as [n| |node sz|mem sz|mem|node sz|sz n]; cbn [run call_ok] in *.
  - unfold bind in Hrun.
    destruct (SetMinBlockSize n st) as [[] s1|] eqn:Hs; [|discriminate].
    injection Hrun as _ <-.
    destruct (decide (currBlock (this st) = NULL)) as [Hcb|Hcb].
    + rewrite SetMinBlockSize_empty in Hs by done. injection Hs as <-.
      exists l. destruct Hok as (Hc & Hlast & _ & Hcur).
      unfold pool_ok, cursor_ok in *. cbn. auto.
    + by rewrite SetMinBlockSize_active in Hs.
  - unfold bind in Hrun. pose proof Hok as (Hc & _ & Hmin & _).
    rewrite (FreeAll_chain st l Hc) in Hrun. injection Hrun as _ <-.
    exists []. by apply pool_ok_emptied.
  - unfold bind in Hrun.
    destruct (AllocBlock node sz st) as [[] s1|] eqn:Hs; [|discriminate].
    injection Hrun as _ <-. destruct Hcall as [_ Hfresh].
    destruct (AllocBlock_Ok_inv _ _ _ _ Hs) as [Hnode Hcb].
    destruct (AllocBlock_ok node sz st l Hok Hcb Hnode Hfresh)
      as (s2 & Hs2 & Hok2).
    exists (l ++ [node]). rewrite Hs in Hs2. by injection Hs2 as <-.
  - discriminate.
  - injection Hrun as _ <-. eauto.
  - destruct Hcall as [_ Hfresh].
    destruct (Alloc_Ok_inv _ _ _ _ _ Hrun) as (Hcb & b & Hb & [Hle|[Hgt Hnode]]).
    + destruct (Alloc_bump_ok node sz st l b Hok Hcb Hb Hle) as (s2 & Hs2 & Hok2).
      exists l. rewrite Hrun in Hs2. by injection Hs2 as _ <-.
    + destruct (Alloc_grow_ok node sz st l b Hok Hcb Hb Hgt Hnode Hfresh)
        as (s2 & Hs2 & Hok2).
      exists (l ++ [node]). rewrite Hrun in Hs2. by injection Hs2 as _ <-.
  - apply FindNthPieceOfSize_pure in Hrun. subst st'. eauto.
Qed.

(** The invariant holds of the constructed pool and all along every run
    of calls that return. *)
Lemma pool_ok_run st st' :
  rtc any_step st st' -> forall l, pool_ok st l -> exists l', pool_ok st' l'.
Proof.
  intros Hrun. induction Hrun as [st|st st1 st' Hstep _ IH]; intros l Hok.
  - eauto.
  - destruct (any_step_ok _ _ _ Hstep Hok) as (l1 & Hok1). eauto.
Qed.

(** ** Rounding *)

(** [RoundUpTo8] on a [size_t]: the result is a [size_t] and a multiple of
    8; up to [SIZE_MAX - 7] it is the least multiple of 8 not below the
    argument, less than 8 above it; beyond, it is 0; and it leaves exactly
    the multiples of 8 alone. *)
Theorem RoundUpTo8_least_multiple :
  forall n : Z,
    in_size_t n ->
    in_size_t (RoundUpTo8 n) /\
    RoundUpTo8 n mod 8 = 0 /\
    (n <= SIZE_MAX - 7 ->
     n <= RoundUpTo8 n < n + 8 /\
     forall m, n <= m -> m mod 8 = 0 -> RoundUpTo8 n <= m) /\
    (SIZE_MAX - 7 < n -> RoundUpTo8 n = 0) /\
    (RoundUpTo8 n = n <-> n mod 8 = 0).
Proof.
  intros n Hn.
  split; [apply RoundUpTo8_range|].
  split; [apply RoundUpTo8_mod8|].
  split; [|split].
  - intros Hle.
    rewrite RoundUpTo8_round_up_8 by (unwrap; lia).
    pose proof (round_up_8_least n) as (H1 & H2 & H3).
    split; [|exact H3].
    split; [exact H1|]. unfold round_up_8. Z.div_mod_to_equations. lia.
  - intros Hgt. apply RoundUpTo8_wraps. unwrap. lia.
  - split.
    + intros Heq. rewrite <- Heq. apply RoundUpTo8_mod8.
    + intros H8. unwrap. Z.div_mod_to_equations. lia.
Qed.

Lemma RoundUpTo8_least_multiple_witness :
  in_size_t 13 /\ RoundUpTo8 13 = 16 /\ RoundUpTo8 13 mod 8 = 0.
Proof.
  assert (H13 : in_size_t 13) by (vm_compute; split; congruence).
  split; [exact H13|]. split; [reflexivity|].
  exact (proj1 (proj2 (RoundUpTo8_least_multiple 13 H13))).
Defined.

(** [RoundUpTo8] is monotone as long as it does not wrap. *)
Theorem RoundUpTo8_monotone :
  forall n m : Z,
    0 <= n -> n <= m -> m <= SIZE_MAX - 7 ->
    RoundUpTo8 n <= RoundUpTo8 m.
Proof.
  intros n m Hn Hnm Hm.
  rewrite !RoundUpTo8_round_up_8 by (unwrap; lia).
  unfold round_up_8. Z.div_mod_to_equations. lia.
Qed.

Lemma RoundUpTo8_monotone_witness : RoundUpTo8 9 <= RoundUpTo8 17.
Proof.
  apply RoundUpTo8_monotone; vm_compute; congruence.
Defined.

(** ** Where allocations lie *)

(** On a well-formed pool whose current block lies in the address space,
    with [calloc] handing back a fresh block that does so too, [Alloc]
    returns a non-null address: the [RoundUpTo8 s] bytes from it on lie
    within the data of the block that is current afterwards, and they are
    the last bytes that block counts as used. *)
Theorem Alloc_within_block :
  forall (node s : Z) (st : state) (l : list Z) (b : MemBlockNode),
    pool_ok st l ->
    currBlock (this st) <> NULL ->
    heap st !! currBlock (this st) = Some b ->
    block_in_range (currBlock (this st)) (size b) ->
    block_in_range node (block_size (minBlockSize (this st)) s) ->
    calloc_fresh node st ->
    exists mem st' b',
      Alloc node s st = Ok mem st' /\
      heap st' !! currBlock (this st') = Some b' /\
      mem <> NULL /\
      currBlock (this st') + sizeof_MemBlockNode <= mem /\
      mem + RoundUpTo8 s
      <= currBlock (this st') + sizeof_MemBlockNode + size b' /\
      mem + RoundUpTo8 s
      = currBlock (this st') + sizeof_MemBlockNode + Used b'.
Proof.
  intros node s st l b Hok Hcb Hb [Hcb0 Hcbfit] [Hn0 Hnfit] Hfresh.
  destruct (pool_ok_active _ _ Hok Hcb) as
    (Hl & Hfb & b0 & Hb0 & Hfs & Hsz & Hu8 & Hcm).
  assert (b0 = b) as -> by congruence.
  pose proof (RoundUpTo8_range s) as Hr.
  destruct Hok as (_ & _ & Hmin & _).
  pose proof (block_size_range _ s Hmin) as Hbs.
  pose proof (block_size_max (minBlockSize (this st)) s) as Hbm.
  destruct (Z.le_gt_cases (RoundUpTo8 s) (free b)) as [Hle|Hgt].
  - eexists _, _, _. split; [apply (Alloc_bump node s st b); done|].
    cbn [this heap currBlock currMem].
    split; [by rewrite lookup_insert_eq|].
    rewrite Hcm. destruct b as [nx sb fb].
    remember (RoundUpTo8 s) as r eqn:Er. clear Er.
    unwrap. unfold with_free. cbn [size free next] in *.
    rewrite (Z.mod_small (currBlock (this st) + 24)) by lia.
    rewrite (Z.mod_small (sb - fb)) by lia.
    rewrite (Z.mod_small (fb - r)) by lia.
    rewrite (Z.mod_small (sb - (fb - r))) by lia.
    rewrite (Z.mod_small (_ + _)) by lia.
    repeat split; lia.
  - assert (Hnode : node <> NULL) by (unwrap; lia).
    eexists _, _, _. split; [apply (Alloc_grow node s st b); done || lia|].
    cbn [this heap currBlock currMem].
    split; [by rewrite lookup_insert_eq|].
    remember (block_size (minBlockSize (this st)) s) as bs eqn:Ebs. clear Ebs.
    remember (RoundUpTo8 s) as r eqn:Er. clear Er.
    unwrap. cbn [size free next] in *.
    rewrite (Z.mod_small (node + 24)) by lia.
    rewrite (Z.mod_small (bs - r)) by lia.
    rewrite (Z.mod_small (bs - (bs - r))) by lia.
    repeat split; lia.
Qed.

Lemma Alloc_within_block_witness :
  pool_ok one_block_16 [1000] /\
  exists mem st' b',
    Alloc 9000 100 one_block_16 = Ok mem st' /\
    heap st' !! currBlock (this st') = Some b' /\
    mem <> NULL /\
    currBlock (this st') + sizeof_MemBlockNode <= mem /\
    mem + RoundUpTo8 100
    <= currBlock (this st') + sizeof_MemBlockNode + size b' /\
    mem + RoundUpTo8 100
    = currBlock (this st') + sizeof_MemBlockNode + Used b'.
Proof.
  pose proof one_block_16_ok as Hok.
  split; [exact Hok|].
  apply (Alloc_within_block 9000 100 one_block_16 [1000]
           (mkNode NULL 4096 4080) Hok).
  - discriminate.
  - reflexivity.
  - vm_compute. split; [reflexivity|congruence].
  - vm_compute. split; [reflexivity|congruence].
  - reflexivity.
Defined.

(** Two allocations in a row that the current block has room for: the
    second starts where the first ends, and the block has lost the sum of
    the two rounded sizes. *)
Theorem Alloc_twice_adjacent :
  forall (n1 n2 s1 s2 : Z) (st : state) (l : list Z) (b : MemBlockNode),
    pool_ok st l ->
    currBlock (this st) <> NULL ->
    heap st !! currBlock (this st) = Some b ->
    RoundUpTo8 s1 + RoundUpTo8 s2 <= free b ->
    exists st' b',
      (p1 <- Alloc n1 s1 ;; p2 <- Alloc n2 s2 ;; ret (p1, p2)) st
      = Ok (currMem (this st), wrap (currMem (this st) + RoundUpTo8 s1)) st' /\
      currBlock (this st') = currBlock (this st) /\
      heap st' !! currBlock (this st) = Some b' /\
      free b' = free b - RoundUpTo8 s1 - RoundUpTo8 s2 /\
      pool_ok st' l.
Proof.
  intros n1 n2 s1 s2 st l b Hok Hcb Hb Hfree.
  destruct (pool_ok_active _ _ Hok Hcb) as
    (Hl & Hfb & b0 & Hb0 & Hfs & Hsz & Hu8 & Hcm).
  assert (b0 = b) as -> by congruence.
  pose proof (RoundUpTo8_range s1) as Hr1.
  pose proof (RoundUpTo8_range s2) as Hr2.
  assert (Hle1 : RoundUpTo8 s1 <= free b) by (unwrap; lia).
  destruct (Alloc_bump_ok n1 s1 st l b Hok Hcb Hb Hle1) as (st1 & Hrun1 & Hok1).
  pose proof Hrun1 as Hrun1'.
  rewrite (Alloc_bump n1 s1 st b) in Hrun1' by done.
  injection Hrun1' as Hst1.
  assert (Hfree1 : wrap (free b - RoundUpTo8 s1) = free b - RoundUpTo8 s1)
    by (apply wrap_small; unwrap; lia).
  assert (Hcb1 : currBlock (this st1) = currBlock (this st)) by (by subst st1).
  assert (Hb1 : heap st1 !! currBlock (this st1)
                = Some (with_free (free b - RoundUpTo8 s1) b)).
  { subst st1. cbn [this heap currBlock]. rewrite lookup_insert_eq.
    by rewrite Hfree1. }
  assert (Hcb1' : currBlock (this st1) <> NULL) by congruence.
  assert (Hle2 : RoundUpTo8 s2 <= free (with_free (free b - RoundUpTo8 s1) b))
    by (cbn; lia).
  destruct (Alloc_bump_ok n2 s2 st1 l _ Hok1 Hcb1' Hb1 Hle2)
    as (st2 & Hrun2 & Hok2).
  pose proof Hrun2 as Hrun2'.
  rewrite (Alloc_bump n2 s2 st1 _ Hcb1' Hb1 Hle2) in Hrun2'.
  injection Hrun2' as Hst2.
  exists st2, (with_free (free b - RoundUpTo8 s1 - RoundUpTo8 s2) b).
  split.
  { unfold bind at 1. rewrite Hrun1. unfold bind at 1. rewrite Hrun2.
    unfold ret. rewrite <- Hst1. reflexivity. }
  split; [subst st2; cbn [this currBlock]; done|].
  split.
  { subst st2. cbn [this heap]. rewrite Hcb1, lookup_insert_eq.
    unfold with_free. cbn [size free next].
    rewrite wrap_small by (unwrap; lia). reflexivity. }
  split; [reflexivity|exact Hok2].
Qed.

Lemma Alloc_twice_adjacent_witness :
  pool_ok one_block [1000] /\
  exists st' b',
    (p1 <- Alloc 9000 13 ;; p2 <- Alloc 9000 20 ;; ret (p1, p2)) one_block
    = Ok (1024, 1040) st' /\
    currBlock (this st') = 1000 /\
    heap st' !! 1000 = Some b' /\
    free b' = 4096 - 16 - 24 /\
    pool_ok st' [1000].
Proof.
  split; [exact one_block_ok|].
  apply (Alloc_twice_adjacent 9000 9000 13 20 one_block [1000]
           (mkNode NULL 4096 4096) one_block_ok).
  - discriminate.
  - reflexivity.
  - vm_compute. congruence.
Defined.

(** A request that rounds to nothing, that is, one of 0 bytes or of more
    than [SIZE_MAX - 7] bytes, is answered with the cursor and changes
    nothing: the next allocation is handed the same address. *)
Theorem Alloc_nothing :
  forall (node s : Z) (st : state) (l : list Z),
    pool_ok st l ->
    currBlock (this st) <> NULL ->
    s = 0 \/ SIZE_MAX - 7 < s <= SIZE_MAX ->
    Alloc node s st = Ok (currMem (this st)) st.
Proof.
  intros node s st l Hok Hcb Hs.
  destruct (pool_ok_active _ _ Hok Hcb) as
    (Hl & Hfb & b & Hb & Hfs & Hsz & Hu8 & Hcm).
  assert (Hr : RoundUpTo8 s = 0).
  { destruct Hs as [->|Hs]; [reflexivity|by apply RoundUpTo8_wraps]. }
  rewrite (Alloc_bump node s st b) by (done || lia).
  rewrite Hr, Z.sub_0_r, Z.add_0_r.
  rewrite (wrap_small (free b)) by (unwrap; lia).
  assert (Hcm' : wrap (currMem (this st)) = currMem (this st)).
  { rewrite Hcm. apply wrap_small. apply wrap_range. }
  rewrite Hcm'.
  assert (Hbb : with_free (free b) b = b) by (by destruct b).
  rewrite Hbb, insert_id by done.
  destruct st as [[m cm cb fb] h]. reflexivity.
Qed.

Lemma Alloc_nothing_witness :
  pool_ok one_block_16 [1000] /\
  Alloc 9000 0 one_block_16 = Ok 1040 one_block_16.
Proof.
  pose proof one_block_16_ok as Hok.
  split; [exact Hok|].
  apply (Alloc_nothing 9000 0 one_block_16 [1000] Hok).
  - discriminate.
  - left. reflexivity.
Defined.

(** ** How the chain grows *)

(** [Alloc] leaves the chain as it is when the current block has room for
    the rounded size, and otherwise appends the block [calloc] hands back
    to its end; either way the first block and the configured minimum
    stay, and the pool is well formed again. *)
Theorem Alloc_extends_chain :
  forall (node s : Z) (st : state) (l : list Z) (b : MemBlockNode),
    pool_ok st l ->
    currBlock (this st) <> NULL ->
    heap st !! currBlock (this st) = Some b ->
    node <> NULL ->
    calloc_fresh node st ->
    exists mem st',
      Alloc node s st = Ok mem st' /\
      pool_ok st' (if free b <? RoundUpTo8 s then l ++ [node] else l) /\
      currBlock (this st')
      = (if free b <? RoundUpTo8 s then node else currBlock (this st)) /\
      firstBlock (this st') = firstBlock (this st) /\
      minBlockSize (this st') = minBlockSize (this st).
Proof.
  intros node s st l b Hok Hcb Hb Hnode Hfresh.
  destruct (pool_ok_active _ _ Hok Hcb) as (_ & Hfb & _).
  destruct (Z.ltb_spec (free b) (RoundUpTo8 s)) as [Hlt|Hle].
  - destruct (Alloc_grow_ok node s st l b Hok Hcb Hb Hlt Hnode Hfresh)
      as (st' & Hrun & Hok').
    exists (data_start node), st'. split; [exact Hrun|].
    split; [exact Hok'|].
    rewrite (Alloc_grow node s st b) in Hrun by done.
    injection Hrun as <-. cbn [this currBlock firstBlock minBlockSize].
    destruct (Z.eqb_spec (firstBlock (this st)) NULL); done.
  - destruct (Alloc_bump_ok node s st l b Hok Hcb Hb Hle) as (st' & Hrun & Hok').
    exists (currMem (this st)), st'. split; [exact Hrun|].
    split; [exact Hok'|].
    rewrite (Alloc_bump node s st b) in Hrun by done.
    injection Hrun as <-. done.
Qed.

Lemma Alloc_extends_chain_witness :
  pool_ok one_block_16 [1000] /\
  exists mem st',
    Alloc 9000 8000 one_block_16 = Ok mem st' /\
    pool_ok st' [1000; 9000] /\
    currBlock (this st') = 9000 /\
    firstBlock (this st') = 1000 /\
    minBlockSize (this st') = 4096.
Proof.
  pose proof one_block_16_ok as Hok.
  split; [exact Hok|].
  apply (Alloc_extends_chain 9000 8000 one_block_16 [1000]
           (mkNode NULL 4096 4080) Hok).
  - discriminate.
  - reflexivity.
  - discriminate.
  - reflexivity.
Defined.

(** ** When the platform heap is exhausted *)

(** [calloc] matters to [Alloc] only when the current block is too full:
    with room in the block the outcome does not depend on what [calloc]
    would hand back, and without room a failed [calloc] makes [Alloc]
    write through the null pointer instead of returning null. *)
Theorem Alloc_calloc_only_when_full :
  forall (s : Z) (st : state) (b : MemBlockNode),
    currBlock (this st) <> NULL ->
    heap st !! currBlock (this st) = Some b ->
    (RoundUpTo8 s <= free b ->
     forall node node', Alloc node s st = Alloc node' s st) /\
    (free b < RoundUpTo8 s -> Alloc NULL s st = Crash NullDeref).
Proof.
  intros s st b Hcb Hb. split.
  - intros Hle node node'.
    by rewrite (Alloc_bump node s st b), (Alloc_bump node' s st b).
  - intros Hlt. by apply (Alloc_calloc_failed s st b).
Qed.

Lemma Alloc_calloc_only_when_full_witness :
  Alloc NULL 16 one_block = Alloc 9000 16 one_block /\
  Alloc NULL 5000 one_block = Crash NullDeref.
Proof.
  assert (Hcb : currBlock (this one_block) <> NULL) by discriminate.
  assert (Hb : heap one_block !! currBlock (this one_block)
               = Some (mkNode NULL 4096 4096)) by reflexivity.
  destruct (Alloc_calloc_only_when_full 16 one_block _ Hcb Hb) as [Hfit _].
  destruct (Alloc_calloc_only_when_full 5000 one_block _ Hcb Hb) as [_ Hfull].
  split.
  - apply Hfit. vm_compute. congruence.
  - apply Hfull. vm_compute. reflexivity.
Defined.

(** ** What bulk release releases *)

Lemma release_size h p l :
  chain h p l -> (base.size (release l h) + length l = base.size h)%nat.
Proof.
  revert h p. induction l as [|a l IH]; intros h p Hc; cbn; [lia|].
  pose proof (chain_NoDup _ _ _ Hc) as Hnd.
  apply NoDup_cons in Hnd as [Hnotin _].
  destruct Hc as (<- & Hp & b & Hb & Hc).
  assert (Hc' : chain (delete p h) (next b) l).
  { eapply chain_ext; [|exact Hc]. intros a Ha.
    apply lookup_delete_ne. intros ->. done. }
  apply IH in Hc'.
  rewrite map_size_delete_Some in Hc' by eauto.
  assert (base.size h <> 0%nat).
  { intros Hz. apply map_size_empty_inv in Hz. subst h.
    by rewrite lookup_empty in Hb. }
  lia.
Qed.

(** [FreeAll] on a pool whose chain ends in null releases the headers of
    the chain, every one of them and nothing else: what else is live in
    the heap stays live and unchanged. *)
Theorem FreeAll_releases_exactly_the_chain :
  forall (st : state) (l : list Z),
    chain (heap st) (firstBlock (this st)) l ->
    exists st',
      FreeAll st = Ok tt st' /\
      (forall p, p ∈ l -> heap st' !! p = None) /\
      (forall p, p ∉ l -> heap st' !! p = heap st !! p) /\
      (base.size (heap st') + length l = base.size (heap st))%nat.
Proof.
  intros st l Hc. eexists. split; [by apply FreeAll_chain|].
  cbn [heap]. split; [|split].
  - intros p Hp. rewrite lookup_release. by rewrite decide_True.
  - intros p Hp. rewrite lookup_release. by rewrite decide_False.
  - by apply (release_size _ (firstBlock (this st))).
Qed.

Lemma FreeAll_releases_exactly_the_chain_witness :
  chain (heap two_blocks) (firstBlock (this two_blocks)) [1000; 8000] /\
  exists st',
    FreeAll two_blocks = Ok tt st' /\
    (forall p, p ∈ [1000; 8000] -> heap st' !! p = None) /\
    (forall p, p ∉ [1000; 8000] -> heap st' !! p = heap two_blocks !! p) /\
    (base.size (heap st') + 2 = base.size (heap two_blocks))%nat.
Proof.
  pose proof (proj1 two_blocks_ok) as Hc.
  split; [exact Hc|].
  exact (FreeAll_releases_exactly_the_chain two_blocks [1000; 8000] Hc).
Defined.

(** ** Lookups at the edges *)

(** On a pool without a block the lookup answers null, whatever the piece
    size and the index. *)
Theorem FindNthPieceOfSize_empty_pool :
  forall (sz n : Z) (st : state),
    firstBlock (this st) = NULL ->
    FindNthPieceOfSize sz n st = Ok NULL st.
Proof.
  intros sz n st Hfb. unfold FindNthPieceOfSize, bind, get_this.
  rewrite Hfb. reflexivity.
Qed.

Lemma FindNthPieceOfSize_empty_pool_witness :
  FindNthPieceOfSize 8 3 new_pool = Ok NULL new_pool.
Proof. apply FindNthPieceOfSize_empty_pool. reflexivity. Defined.

(** On a pool that has a block, asking for piece 0, the first piece, stops
    the program with a division by zero, for every element size: so does
    [GetAtPtr<T>(0)]. *)
Theorem GetAtPtr_index_0_divides_by_zero :
  forall (sizeof_T : Z) (st : state) (l : list Z),
    pool_ok st l ->
    l <> [] ->
    GetAtPtr sizeof_T 0 st = Crash DivByZero /\
    FindNthPieceOfSize sizeof_T 0 st = Crash DivByZero.
Proof.
  intros sizeof_T st l Hok Hl.
  assert (Hrun : FindNthPieceOfSize sizeof_T 0 st = Crash DivByZero).
  { destruct Hok as (Hc & _). destruct l as [|a l]; [done|].
    destruct Hc as (Hfb & Ha & b & Hb & _).
    unfold FindNthPieceOfSize, bind at 1, get_this. rewrite Hfb.
    cbn [FindNth_loop]. destruct (Z.eqb_spec a NULL) as [|_]; [done|].
    unfold bind. by rewrite (load_live _ b). }
  split; [exact Hrun|exact Hrun].
Qed.

Lemma GetAtPtr_index_0_divides_by_zero_witness :
  pool_ok one_block_16 [1000] /\
  GetAtPtr 8 0 one_block_16 = Crash DivByZero.
Proof.
  split; [exact one_block_16_ok|].
  apply (GetAtPtr_index_0_divides_by_zero 8 one_block_16 [1000]
           one_block_16_ok).
  discriminate.
Defined.

(** The lookup only reads: when it returns, pool and heap are as before. *)
Theorem FindNthPieceOfSize_read_only :
  forall (sz n : Z) (st : state) (r : Z) (st' : state),
    FindNthPieceOfSize sz n st = Ok r st' -> st' = st.
Proof.
  intros sz n st r st'. unfold FindNthPieceOfSize, bind, get_this.
  apply FindNth_loop_pure.
Qed.

Lemma FindNthPieceOfSize_read_only_witness :
  FindNthPieceOfSize 8 1 one_block_16 = Ok 1032 one_block_16.
Proof.
  assert (Hrun : exists st', FindNthPieceOfSize 8 1 one_block_16 = Ok 1032 st').
  { eexists. vm_compute. reflexivity. }
  destruct Hrun as (st' & Hrun).
  rewrite <- (FindNthPieceOfSize_read_only 8 1 one_block_16 1032 st' Hrun)
    at 2.
  exact Hrun.
Defined.

(** ** What a call leaves alone *)

Ltac keeps_done :=
  let H := fresh in intros H; inversion H; subst; reflexivity.

Lemma keeps_ret {A} (a : A) : keeps_minBlockSize (ret a).
Proof. intros s a' s'. unfold ret. keeps_done. Qed.

Lemma keeps_crash {A} f : keeps_minBlockSize (@crash A f).
Proof. intros s a s'. unfold crash. discriminate. Qed.

Lemma keeps_bind {A B} (m : M A) (k : A -> M B) :
  keeps_minBlockSize m -> (forall a, keeps_minBlockSize (k a)) ->
  keeps_minBlockSize (bind m k).
Proof.
  intros Hm Hk s b s'. unfold bind.
  destruct (m s) as [a s1|] eqn:Hms; [|done].
  intros Hks. rewrite (Hk a s1 b s' Hks). by apply (Hm s a).
Qed.

Lemma keeps_get_this : keeps_minBlockSize get_this.
Proof. intros s a s'. unfold get_this. keeps_done. Qed.

Lemma keeps_load p : keeps_minBlockSize (load p).
Proof.
  intros s a s'. unfold load. destruct (p =? NULL); [done|].
  destruct (heap s !! p); [|done]. keeps_done.
Qed.

Lemma keeps_store p f : keeps_minBlockSize (store p f).
Proof.
  intros s a s'. unfold store. destruct (p =? NULL); [done|].
  destruct (heap s !! p); [|done]. keeps_done.
Qed.

Lemma keeps_calloc p n k : keeps_minBlockSize (calloc p n k).
Proof.
  intros s a s'. unfold calloc. destruct (p =? NULL); keeps_done.
Qed.

Lemma keeps_free_ p : keeps_minBlockSize (free_ p).
Proof.
  intros s a s'. unfold free_. destruct (p =? NULL); [keeps_done|].
  destruct (heap s !! p); [|done]. keeps_done.
Qed.

Lemma keeps_set_currMem v : keeps_minBlockSize (set_currMem v).
Proof. intros s a s'. unfold set_currMem. keeps_done. Qed.

Lemma keeps_set_currBlock v : keeps_minBlockSize (set_currBlock v).
Proof. intros s a s'. unfold set_currBlock. keeps_done. Qed.

Lemma keeps_set_firstBlock v : keeps_minBlockSize (set_firstBlock v).
Proof. intros s a s'. unfold set_firstBlock. keeps_done. Qed.

Lemma keeps_Init : keeps_minBlockSize Init.
Proof.
  unfold Init. repeat (apply keeps_bind; [|intros ?]);
    auto using keeps_set_currMem, keeps_set_currBlock, keeps_set_firstBlock.
Qed.

Lemma keeps_FreeAll_loop fuel : forall curr,
  keeps_minBlockSize (FreeAll_loop fuel curr).
Proof.
  induction fuel as [|fuel IH]; intros curr; cbn [FreeAll_loop];
    destruct (curr =? NULL); auto using @keeps_ret, @keeps_crash.
  apply keeps_bind; [apply keeps_load|intros b].
  apply keeps_bind; [apply keeps_free_|intros _]. apply IH.
Qed.

Lemma keeps_FreeAll : keeps_minBlockSize FreeAll.
Proof.
  unfold FreeAll. apply keeps_bind; [apply keeps_get_this|intros a].
  apply keeps_bind; [|intros _; apply keeps_Init].
  intros s x s'. apply keeps_FreeAll_loop.
Qed.

Lemma keeps_AllocBlock node minSize : keeps_minBlockSize (AllocBlock node minSize).
Proof.
  unfold AllocBlock. apply keeps_bind; [apply keeps_get_this|intros a].
  apply keeps_bind; [apply keeps_calloc|intros p].
  apply keeps_bind.
  { destruct (firstBlock a =? NULL);
      auto using keeps_set_firstBlock, @keeps_ret. }
  intros _. apply keeps_bind; [apply keeps_set_currMem|intros _].
  apply keeps_bind; [apply keeps_store|intros _].
  apply keeps_bind; [apply keeps_store|intros _].
  apply keeps_bind; [apply keeps_get_this|intros a'].
  apply keeps_bind; [apply keeps_store|intros _].
  apply keeps_set_currBlock.
Qed.

Lemma keeps_Alloc node sz : keeps_minBlockSize (Alloc node sz).
Proof.
  unfold Alloc. apply keeps_bind; [apply keeps_get_this|intros a].
  apply keeps_bind.
  { destruct (currBlock a =? NULL); [apply keeps_ret|].
    apply keeps_bind; [apply keeps_load|intros b; apply keeps_ret]. }
  intros full. apply keeps_bind.
  { destruct full; auto using keeps_AllocBlock, @keeps_ret. }
  intros _. apply keeps_bind; [apply keeps_get_this|intros a'].
  apply keeps_bind; [apply keeps_set_currMem|intros _].
  apply keeps_bind; [apply keeps_load|intros b].
  apply keeps_bind; [apply keeps_store|intros _]. apply keeps_ret.
Qed.

(** No call other than [SetMinBlockSize] ever changes the configured
    minimum block size. *)
Theorem minBlockSize_changed_only_by_SetMinBlockSize :
  forall (c : call) (st : state) (r : Z) (st' : state),
    is_SetMinBlockSize c = false ->
    run c st = Ok r st' ->
    minBlockSize (this st') = minBlockSize (this st).
Proof.
  intros c st r st' Hc.
  assert (Hk : keeps_minBlockSize (run c)).
  { destruct c as [n| |node sz|mem sz|mem|node sz|sz n]; cbn [run];
      [discriminate| | | | | |].
    - apply keeps_bind; [apply keeps_FreeAll|intros _; apply keeps_ret].
    - apply keeps_bind; [apply keeps_AllocBlock|intros _; apply keeps_ret].
    - intros s a s'. discriminate.
    - apply keeps_bind; [apply keeps_ret|intros _; apply keeps_ret].
    - apply keeps_Alloc.
    - intros s a s' Hrun. apply FindNthPieceOfSize_pure in Hrun. by subst s'. }
  apply Hk.
Qed.

Lemma minBlockSize_changed_only_by_SetMinBlockSize_witness :
  exists st',
    run (CAlloc 9000 100) small_pool = Ok 9024 st' /\
    minBlockSize (this st') = 64.
Proof.
  assert (Hrun : exists st', run (CAlloc 9000 100) small_pool = Ok 9024 st').
  { eexists. vm_compute. reflexivity. }
  destruct Hrun as (st' & Hrun). exists st'. split; [exact Hrun|].
  exact (minBlockSize_changed_only_by_SetMinBlockSize
           (CAlloc 9000 100) small_pool 9024 st' eq_refl Hrun).
Defined.

(** ** Capacities *)

Lemma AllocBlock_frame_size node S st st' :
  calloc_fresh node st ->
  AllocBlock node S st = Ok tt st' ->
  forall p b, heap st !! p = Some b ->
              exists b', heap st' !! p = Some b' /\ size b' = size b.
Proof.
  intros Hfresh Hrun p b Hp. unfold calloc_fresh in Hfresh.
  assert (Hpn : p <> node) by congruence.
  destruct (AllocBlock_Ok_inv _ _ _ _ Hrun) as [Hnode Hcb].
  destruct (heap st !! currBlock (this st)) as [bc|] eqn:Hbc.
  - rewrite (AllocBlock_active node S st bc) in Hrun by done.
    injection Hrun as <-. cbn [heap].
    destruct (decide (p = currBlock (this st))) as [->|Hpc].
    + rewrite lookup_insert_eq. eexists. split; [reflexivity|].
      cbn. congruence.
    + rewrite !lookup_insert_ne by done. eauto.
  - destruct st as [[m cm cb fb] h]; cbn in *.
    unfold AllocBlock, bind, get_this, calloc in Hrun; cbn in Hrun.
    destruct (Z.eqb_spec node NULL) as [|_]; [done|].
    assert (Hs : exists s1,
      store cb (with_next node)
        (mkState (mkPool m (wrap (node + sizeof_MemBlockNode)) cb
                         (if fb =? NULL then node else fb))
                 (<[node := mkNode 0 (block_size m S) (block_size m S)]> h))
      = Ok tt s1 /\ heap st' = heap s1).
    { destruct (fb =? NULL); cbn in Hrun;
        do 2 (erewrite store_live in Hrun;
              [ cbn [this heap] in Hrun | done
              | cbn [this heap]; rewrite lookup_insert_eq; reflexivity ]);
        cbn in Hrun; rewrite !insert_insert_eq in Hrun;
        destruct (store cb _ _) as [[] s1|] eqn:Hs; try discriminate;
        injection Hrun as <-; exists s1; done. }
    destruct Hs as (s1 & Hs & ->). unfold store in Hs.
    destruct (Z.eqb_spec cb NULL) as [|_]; [done|]. cbn [this heap] in Hs.
    destruct (decide (cb = node)) as [->|Hcn].
    + rewrite lookup_insert_eq in Hs. injection Hs as <-. cbn [heap].
      exists b. by rewrite !lookup_insert_ne.
    + rewrite lookup_insert_ne, Hbc in Hs by done. discriminate.
Qed.

Lemma Alloc_frame_size node sz st mem st' :
  calloc_fresh node st ->
  Alloc node sz st = Ok mem st' ->
  forall p b, heap st !! p = Some b ->
              exists b', heap st' !! p = Some b' /\ size b' = size b.
Proof.
  intros Hfresh Hrun p b Hp.
  destruct (Alloc_Ok_inv _ _ _ _ _ Hrun) as (Hcb & bc & Hbc & [Hle|[Hgt Hnode]]).
  - rewrite (Alloc_bump node sz st bc) in Hrun by done.
    injection Hrun as _ <-. cbn [heap].
    destruct (decide (p = currBlock (this st))) as [->|Hpc].
    + rewrite lookup_insert_eq. eexists. split; [reflexivity|].
      cbn. congruence.
    + rewrite lookup_insert_ne by done. eauto.
  - rewrite (Alloc_grow node sz st bc) in Hrun by done.
    injection Hrun as _ <-. cbn [heap].
    assert (Hpn : p <> node) by (unfold calloc_fresh in Hfresh; congruence).
    rewrite lookup_insert_ne by done.
    destruct (decide (p = currBlock (this st))) as [->|Hpc].
    + rewrite lookup_insert_eq. eexists. split; [reflexivity|].
      cbn. congruence.
    + rewrite lookup_insert_ne by done. eauto.
Qed.

Lemma pool_step_size st st' :
  pool_step st st' ->
  forall p b, heap st !! p = Some b ->
              exists b', heap st' !! p = Some b' /\ size b' = size b.
Proof.
  intros (c & r & Hc & Hok & Hrun) p b Hp.
  destruct c as [n| |node sz|mem sz|mem|node sz|sz n];
    cbn [run call_ok is_FreeAll] in *.
  - unfold bind in Hrun.
    destruct (SetMinBlockSize n st) as [[] s1|] eqn:Hs; [|discriminate].
    injection Hrun as _ <-.
    unfold SetMinBlockSize, bind, get_this, CrashIf in Hs.
    destruct (negb _); [discriminate|]. cbn in Hs. injection Hs as <-.
    exists b. split; [exact Hp|done].
  - discriminate.
  - unfold bind in Hrun.
    destruct (AllocBlock node sz st) as [[] s1|] eqn:Hs; [|discriminate].
    injection Hrun as _ <-. destruct Hok as [_ Hfresh].
    exact (AllocBlock_frame_size _ _ _ _ Hfresh Hs p b Hp).
  - discriminate.
  - injection Hrun as _ <-. eauto.
  - destruct Hok as [_ Hfresh].
    exact (Alloc_frame_size _ _ _ _ _ Hfresh Hrun p b Hp).
  - apply FindNthPieceOfSize_pure in Hrun. subst st'. eauto.
Qed.

(** Along any run of calls other than [FreeAll] that return, every block
    stays in the heap with the capacity it was created with. *)
Theorem capacity_never_changes :
  forall (st st' : state),
    rtc pool_step st st' ->
    forall (p : Z) (b : MemBlockNode),
      heap st !! p = Some b ->
      exists b', heap st' !! p = Some b' /\ size b' = size b.
Proof.
  intros st st' Hrun. induction Hrun as [st|st st1 st' Hstep _ IH].
  - intros p b Hp. eauto.
  - intros p b Hp.
    destruct (pool_step_size _ _ Hstep p b Hp) as (b1 & Hb1 & Hs1).
    destruct (IH p b1 Hb1) as (b' & Hb' & Hs').
    exists b'. split; [done|congruence].
Qed.

Lemma one_block_run : rtc pool_step one_block one_block_16_8000.
Proof.
  apply (rtc_l _ _ one_block_16).
  - exists (CAlloc 9000 16), 1024. repeat split; try (vm_compute; congruence).
  - apply rtc_once.
    exists (CAlloc 9000 8000), 9024. repeat split; try (vm_compute; congruence).
Qed.

Lemma capacity_never_changes_witness :
  rtc pool_step one_block one_block_16_8000 /\
  heap one_block !! 1000 = Some (mkNode NULL 4096 4096) /\
  exists b', heap one_block_16_8000 !! 1000 = Some b' /\ size b' = 4096.
Proof.
  split; [exact one_block_run|]. split; [reflexivity|].
  exact (capacity_never_changes one_block one_block_16_8000 one_block_run
           1000 (mkNode NULL 4096 4096) eq_refl).
Defined.

(** ** Well-formedness along runs *)

Lemma pool_step_any st st' : pool_step st st' -> any_step st st'.
Proof. intros (c & r & _ & Hok & Hrun). by exists c, r. Qed.

(** Every pool reached from a well-formed pool by calls that return, with
    [calloc] handing back fresh memory, is well formed. *)
Theorem pool_ok_along_runs :
  forall (st st' : state) (l : list Z),
    pool_ok st l ->
    rtc any_step st st' ->
    exists l', pool_ok st' l'.
Proof.
  intros st st' l Hok Hrun. by apply (pool_ok_run st st' Hrun l).
Qed.

Lemma pool_ok_along_runs_witness :
  pool_ok one_block [1000] /\
  rtc any_step one_block one_block_16_8000 /\
  exists l', pool_ok one_block_16_8000 l'.
Proof.
  assert (Hrun : rtc any_step one_block one_block_16_8000).
  { eapply rtc_subrel; [|exact one_block_run].
    intros x y. apply pool_step_any. }
  split; [exact one_block_ok|]. split; [exact Hrun|].
  exact (pool_ok_along_runs one_block one_block_16_8000 [1000]
           one_block_ok Hrun).
Defined.

(** ** The fixed array when [malloc] fails *)

(** When the count exceeds what the inline buffer holds and [malloc] hands
    back null, the constructor reports nothing and [Get] answers the
    inline buffer, which is too small for the count. *)
Theorem FixedArray_malloc_failed :
  forall (sizeof_T budget self count : Z),
    0 < sizeof_T ->
    0 <= budget < 2 ^ 31 ->
    FixedArray.stackEls sizeof_T budget < count ->
    FixedArray.Get (FixedArray.obj (FixedArray.ctor sizeof_T budget self NULL count))
    = self /\
    budget < count * sizeof_T.
Proof.
  intros sizeof_T budget self count Hs Hb Hc.
  assert (Hels : FixedArray.stackEls sizeof_T budget = budget / sizeof_T).
  { unfold FixedArray.stackEls. rewrite wrap_small; [done|]. unwrap. lia. }
  split.
  - unfold FixedArray.ctor.
    destruct (Z.gtb_spec count (FixedArray.stackEls sizeof_T budget)); [|lia].
    reflexivity.
  - rewrite Hels in Hc.
    pose proof (Z.mul_succ_div_gt budget sizeof_T Hs). nia.
Qed.

Lemma FixedArray_malloc_failed_witness :
  FixedArray.Get (FixedArray.obj (FixedArray.ctor 8 64 5000 NULL 9)) = 5000 /\
  64 < 9 * 8.
Proof.
  apply (FixedArray_malloc_failed 8 64 5000 9); vm_compute; try congruence.
  split; congruence.
Defined.

(** ** Copies *)





(** [Dup] without an allocator, when [malloc] fails: the result is null
    and nothing is copied or changed. *)
Theorem Dup_malloc_failed :
  forall (mem size padding : Z) (w : world),
    Allocator.Dup NULL None mem size padding w = Done NULL w.
Proof. intros mem size padding w. destruct w. reflexivity. Qed.

(** ** A pool behind the interface *)

(** Through the interface a pool releases and resizes nothing: [Free] on
    it returns with memory, chunks and pool unchanged, so whatever runs
    next runs as if [Free] had not been called, and [Realloc] on it stops
    the program, whatever the platform's [realloc] does. *)
Theorem Allocator_pool_Free_Realloc :
  forall (realloc : Z -> Z -> W Z) (node mem size : Z) (w : world),
    Allocator.Free (Some (PoolAllocator_vtable node)) mem w = Done tt w /\
    (forall (A : Type) (k : W A),
        (Allocator.Free (Some (PoolAllocator_vtable node)) mem ;;; k)%world w
        = k w) /\
    Allocator.Realloc realloc (Some (PoolAllocator_vtable node)) mem size w
    = Fault CrashMe.
Proof.
  intros realloc node mem size w.
  assert (Hfree : Allocator.Free (Some (PoolAllocator_vtable node)) mem w
                  = Done tt w) by (by destruct w).
  split; [exact Hfree|]. split; [|reflexivity].
  intros A k. unfold wbind. by rewrite Hfree.
Qed.




(** ** Pieces of one size *)

Lemma wrap_add_wrap a b : wrap (wrap a + b) = wrap (a + b).
Proof. unwrap. by rewrite Z.add_mod_idemp_l. Qed.

(** As many allocations of one size as the current block has room for
    return the addresses of an array: the [i]-th lies [i] rounded sizes
    behind the cursor the run started from.  The chain is not touched. *)
Theorem Alloc_many_addresses :
  forall (nodes : list Z) (sz : Z) (st : state) (l : list Z)
         (b : MemBlockNode),
    pool_ok st l ->
    currBlock (this st) <> NULL ->
    heap st !! currBlock (this st) = Some b ->
    Z.of_nat (length nodes) * RoundUpTo8 sz <= free b ->
    exists st',
      Alloc_many nodes sz st
      = Ok (map (fun i => wrap (currMem (this st)
                                + Z.of_nat i * RoundUpTo8 sz))
                (seq 0 (length nodes))) st' /\
      pool_ok st' l /\
      currBlock (this st') = currBlock (this st).
Proof.
  induction nodes as [|node nodes IH]; intros sz st l b Hok Hcb Hb Hfree.
  - exists st. split; [reflexivity|]. split; [exact Hok|reflexivity].
  - pose proof (RoundUpTo8_range sz) as Hr.
    destruct (pool_ok_active _ _ Hok Hcb) as
      (_ & _ & b0 & Hb0 & Hfs & Hsz & _ & Hcm).
    assert (b0 = b) as -> by congruence.
    cbn [length] in Hfree.
    assert (Hle : RoundUpTo8 sz <= free b) by (unwrap; nia).
    destruct (Alloc_bump_ok node sz st l b Hok Hcb Hb Hle) as (st1 & Hrun1 & Hok1).
    pose proof Hrun1 as Hst1.
    rewrite (Alloc_bump node sz st b) in Hst1 by done.
    injection Hst1 as Hst1.
    assert (Hcb1 : currBlock (this st1) = currBlock (this st)) by (by subst st1).
    assert (Hcm1 : currMem (this st1)
                   = wrap (currMem (this st) + RoundUpTo8 sz)) by (by subst st1).
    assert (Hb1 : heap st1 !! currBlock (this st1)
                  = Some (with_free (free b - RoundUpTo8 sz) b)).
    { subst st1. cbn [this heap currBlock]. rewrite lookup_insert_eq.
      rewrite wrap_small by (unwrap; lia). done. }
    destruct (IH sz st1 l _ Hok1 ltac:(congruence) Hb1) as (st' & Hrun & Hok' & Hcb').
    { cbn [free with_free]. lia. }
    exists st'. split; [|split; [exact Hok'|by rewrite Hcb']].
    cbn [Alloc_many]. unfold bind at 1. rewrite Hrun1.
    unfold bind at 1. rewrite Hrun. unfold ret. f_equal.
    cbn [length seq map]. f_equal.
    + rewrite Z.mul_0_l, Z.add_0_r. symmetry. apply wrap_small.
      rewrite Hcm. apply wrap_range.
    + rewrite <- seq_shift, map_map. apply map_ext. intros i.
      rewrite Hcm1, wrap_add_wrap. f_equal. lia.
Qed.

Lemma Alloc_many_addresses_witness :
  pool_ok one_block [1000] /\
  exists st',
    Alloc_many [9000; 9000; 9000] 13 one_block = Ok [1024; 1040; 1056] st' /\
    pool_ok st' [1000] /\
    currBlock (this st') = 1000.
Proof.
  split; [exact one_block_ok|].
  apply (Alloc_many_addresses [9000; 9000; 9000] 13 one_block [1000]
           (mkNode NULL 4096 4096) one_block_ok).
  - discriminate.
  - reflexivity.
  - vm_compute. congruence.
Defined.

(** ** Construction and destruction of a fixed array *)

(** A [FixedArray] that is constructed and then destroyed leaves the
    platform heap as it was: the destructor frees the chunk the
    constructor obtained, if it obtained one, and nothing otherwise. *)
Theorem FixedArray_construct_dtor :
  forall (sizeof_T budget self p count : Z) (w : world),
    chunks w !! p = None ->
    (a <- FixedArray_construct sizeof_T budget self p count ;;
     FixedArray_dtor a)%world w
    = Done tt w.
Proof.
  intros sizeof_T budget self p count w Hp.
  unfold FixedArray_construct, FixedArray.ctor, FixedArray_dtor, wbind.
  destruct w as [pl ch by_]. cbn [chunks] in Hp.
  destruct (count >? FixedArray.stackEls sizeof_T budget);
    cbn [FixedArray.malloc_request FixedArray.obj FixedArray.memBuf].
  - unfold malloc, wret, free_chunk.
    destruct (Z.eqb_spec p NULL) as [->|Hne]; cbn; [reflexivity|].
    destruct (Z.eqb_spec p NULL) as [|_]; [contradiction|].
    rewrite lookup_insert_eq. by rewrite delete_insert_eq, delete_id.
  - reflexivity.
Qed.

Lemma FixedArray_construct_dtor_witness :
  (a <- FixedArray_construct 8 64 5000 7000 9 ;; FixedArray_dtor a)%world
    small_world
  = Done tt small_world.
Proof.
  apply (FixedArray_construct_dtor 8 64 5000 7000 9 small_world).
  reflexivity.
Defined.
